(** * spirals.py: the spiral growth and culling engine

    A shallow embedding of [src/spirals.py] (classes [Spiral] and
    [SpiralsHandler], and the geometry helpers), and the properties of the
    specification stated over it.

    Numbers.  The program computes with numpy float64 values.  They are
    idealised here as exact rationals [Q]; a comparison
    [np.linalg.norm(v) > c] with [c >= 0] is the comparison of the squares,
    [c * c < v . v], which is what it means over the reals.  Rounding, NaN
    and infinities are outside the model.

    Exceptions.  A Python call either returns, raises, or (the [while] loop
    of [Spiral.step]) runs for ever; this is the type [result]. *)

From Stdlib Require Import String Ascii.
From Stdlib Require Import List ZArith QArith Qfield Lia Lqa Bool.
Import ListNotations.

Local Open Scope Q_scope.

(** ** Outcomes of a call *)

Inductive exn : Type :=
| AssertionError                 (* a failed [assert] *)
| IndexError                     (* list index out of range *)
| SystemExit (msg : string).     (* [sys.exit(msg)] *)

Inductive result (A : Type) : Type :=
| Ok (a : A)
| Raise (e : exn)
| Timeout.                       (* the loop model ran out of fuel *)

Arguments Ok {A} a.
Arguments Raise {A} e.
Arguments Timeout {A}.

Definition bind {A B} (r : result A) (k : A -> result B) : result B :=
  match r with
  | Ok a => k a
  | Raise e => Raise e
  | Timeout => Timeout
  end.

Notation "x <- r ;; k" := (bind r (fun x => k))
  (at level 61, r at next level, right associativity).
Notation "' pat <- r ;; k" := (bind r (fun pat => k))
  (at level 61, pat pattern, r at next level, right associativity).

(** ** Scalars, points and lines *)

Definition Qltb (x y : Q) : bool :=
  (Qnum x * QDen y <? Qnum y * QDen x)%Z.

Definition point : Type := (Q * Q)%type.
Definition line : Type := (point * point)%type.

Definition px (p : point) : Q := fst p.
Definition py (p : point) : Q := snd p.

Definition padd (p q : point) : point := (px p + px q, py p + py q).
Definition psub (p q : point) : point := (px p - px q, py p - py q).
Definition pscale (k : Q) (p : point) : point := (k * px p, k * py p).

(** [line - point], [s * line] and [line + point] on a 2x2 numpy array
    broadcast over its two rows. *)
Definition lsub (l : line) (p : point) : line := (psub (fst l) p, psub (snd l) p).
Definition lscale (k : Q) (l : line) : line := (pscale k (fst l), pscale k (snd l)).
Definition ladd (l : line) (p : point) : line := (padd (fst l) p, padd (snd l) p).

(** Equality of values, as opposed to equality of representations. *)
Definition peq (p q : point) : Prop := px p == px q /\ py p == py q.
Definition leq (l m : line) : Prop := peq (fst l) (fst m) /\ peq (snd l) (snd m).

(** [np.linalg.norm(v) > c], for a constant [c >= 0]. *)
Definition norm_sq (v : point) : Q := px v * px v + py v * py v.
Definition norm_gt (v : point) (c : Q) : bool := Qltb (c * c) (norm_sq v).

(** ** Python lists *)

(** [l[k]] for an integer [k]: a negative index counts from the end, and an
    index outside [-len, len) raises IndexError ([None]). *)
Definition py_index {A} (l : list A) (k : Z) : option A :=
  let n := Z.of_nat (length l) in
  if (k <? 0)%Z then
    if (k + n <? 0)%Z then None else nth_error l (Z.to_nat (k + n))
  else nth_error l (Z.to_nat k).

(** [l[-n:]]: the last [n] elements, all of [l] when it has fewer; and all of
    [l] when [n] is 0, since [-0] is [0]. *)
Definition py_last_n {A} (n : nat) (l : list A) : list A :=
  match n with
  | O => l
  | S _ => skipn (length l - n) l
  end.

(** ** Geometry helpers *)

(** [eta_point(line, eta)] *)
Definition eta_point (l : line) (eta : Q) : point :=
  padd (fst l) (pscale eta (psub (snd l) (fst l))).

Definition Qsum (xs : list Q) : Q := fold_right Qplus 0 xs.

(** [np.average(xs)] of a non-empty list. *)
Definition average (xs : list Q) : Q :=
  Qsum xs / inject_Z (Z.of_nat (length xs)).

(** [average_point_of_lines(lines)] *)
Definition average_point_of_lines (ls : list line) : point :=
  let centers := map (fun l => eta_point l (1 # 2)) ls in
  let x_c := average (map px centers) in
  let y_c := average (map py centers) in
  (x_c, y_c).

(** ** Spiral *)

Definition MAX_LINES : Z := 10000.
Definition MIN_LENGHT : Q := 10.
Definition MAX_SPIRAL_CENTER_DEVIATION : Q := 10.

Record Spiral : Type := mkSpiral {
  chirality   : string;
  view_size   : point;
  center      : point;
  eta         : Q;
  growth_rate : Q;
  active      : bool;
  n_vert      : nat;
  lines       : list line
}.

Definition set_lines (sp : Spiral) (ls : list line) : Spiral :=
  mkSpiral (chirality sp) (view_size sp) (center sp) (eta sp)
           (growth_rate sp) (active sp) (n_vert sp) ls.

Definition set_active (sp : Spiral) (b : bool) : Spiral :=
  mkSpiral (chirality sp) (view_size sp) (center sp) (eta sp)
           (growth_rate sp) b (n_vert sp) (lines sp).

Definition origin : point := (0, 0).

(** [poly_vertices[k]] where the index is known to be in range; the default
    is never returned inside [initial_lines]. *)
Definition vertex_at (pv : list point) (k : Z) : point :=
  match py_index pv k with
  | Some v => v
  | None => origin
  end.

(** The body of the [for i in range(len(poly_vertices))] loop of
    [Spiral.__init__]: the line from vertex [i-1] to vertex [i], both moved
    by [center]. *)
Definition initial_line (pv : list point) (c : point) (i : nat) : line :=
  let p1 := padd (vertex_at pv (Z.of_nat i - 1)) c in
  let p2 := padd (vertex_at pv (Z.of_nat i)) c in
  (p1, p2).

Definition initial_lines (pv : list point) (c : point) : list line :=
  map (initial_line pv c) (seq 0 (length pv)).

Definition valid_chirality (ch : string) : bool :=
  (String.eqb ch "+" || String.eqb ch "-")%bool.

(** [Spiral.__init__] *)
Definition Spiral_init (poly_vertices : list point) (ch : string)
    (view center : point) (eta growth_rate : Q) : result Spiral :=
  if negb (valid_chirality ch) then Raise AssertionError
  else if negb (Qltb 0 eta && Qltb eta 1) then Raise AssertionError
  else if negb (Qltb 0 growth_rate) then Raise AssertionError
  else
    let pv := if String.eqb ch "-" then rev poly_vertices else poly_vertices in
    Ok (mkSpiral ch view center eta growth_rate true
                 (length poly_vertices) (initial_lines pv center)).

(** [Spiral._is_line_visible]; in Python [and] binds tighter than [or]. *)
Definition _is_line_visible (sp : Spiral) (l : line) : bool :=
  (Qltb 0 (px (fst l)) && Qltb (px (fst l)) (px (view_size sp))
   || Qltb 0 (py (fst l)) && Qltb (py (fst l)) (py (view_size sp))
   || Qltb 0 (px (snd l)) && Qltb (px (snd l)) (px (view_size sp))
   || Qltb 0 (py (snd l)) && Qltb (py (snd l)) (py (view_size sp)))%bool.

(** [Spiral._spiral_center] *)
Definition _spiral_center (sp : Spiral) : point :=
  match lines sp with
  | [] => center sp
  | _ :: _ => average_point_of_lines (py_last_n (n_vert sp) (lines sp))
  end.

(** The list comprehension [s*(line-spiral_center) + self.center]. *)
Definition rescale (s : Q) (spiral_center c : point) (l : line) : line :=
  ladd (lscale s (lsub l spiral_center)) c.

(** One [self.lines.append(...)] of the growth loop, with
    [i, j = len-1, len-n_vert+1]. *)
Definition append_line (n_vert : nat) (eta : Q) (ls : list line)
  : result (list line) :=
  let i := (Z.of_nat (length ls) - 1)%Z in
  let j := (Z.of_nat (length ls) - Z.of_nat n_vert + 1)%Z in
  match py_index ls i with
  | None => Raise IndexError
  | Some li =>
      match py_index ls j with
      | None => Raise IndexError
      | Some lj => Ok (ls ++ [(snd li, eta_point lj eta)])
      end
  end.

(** [for i in range(self.n_vert): ...append...], [k] iterations. *)
Fixpoint append_lines (k n_vert : nat) (eta : Q) (ls : list line)
  : result (list line) :=
  match k with
  | O => Ok ls
  | S k' => ls' <- append_line n_vert eta ls ;; append_lines k' n_vert eta ls'
  end.

(** The [while] loop of [Spiral.step].  [fuel] bounds the number of times the
    condition is evaluated; [Timeout] is returned when it is used up. *)
Fixpoint add_lines (fuel n_vert : nat) (eta : Q) (ls : list line)
  : result (list line) :=
  match fuel with
  | O => Timeout
  | S fuel' =>
      match py_index ls (-1) with
      | None => Raise IndexError
      | Some last =>
          if norm_gt (psub (fst last) (snd last)) MIN_LENGHT then
            ls' <- append_lines n_vert n_vert eta ls ;;
            if (MAX_LINES <? Z.of_nat (length ls'))%Z
            then Raise (SystemExit "Too many lines in spiral")
            else add_lines fuel' n_vert eta ls'
          else Ok ls
      end
  end.

(** Enough fuel for every run of the loop that ends (see [add_lines_fuel]). *)
Definition step_fuel : nat := Z.to_nat MAX_LINES + 2.

(** [if self.active: while ...] on the rescaled lines [ls]. *)
Definition grow (sp : Spiral) (ls : list line) : result (list line) :=
  if active sp then add_lines step_fuel (n_vert sp) (eta sp) ls else Ok ls.

(** [Spiral.step] after the rescaling: growth, then culling. *)
Definition grow_and_cull (sp : Spiral) (ls : list line) : result Spiral :=
  ls' <- grow sp ls ;;
  Ok (set_lines sp (filter (_is_line_visible sp) ls')).

(** [Spiral.step] *)
Definition step (sp : Spiral) (dT : Q) : result Spiral :=
  let spiral_center := _spiral_center sp in
  if norm_gt (psub spiral_center (center sp)) MAX_SPIRAL_CENTER_DEVIATION
  then Ok (set_lines sp [])
  else
    let s := 1 + growth_rate sp * dT in
    grow_and_cull sp (map (rescale s spiral_center (center sp)) (lines sp)).

(** ** SpiralsHandler *)

(** The module-level [random] generator: the sequence of its future draws.
    [random.choice(pool)] raises IndexError on an empty pool. *)
Definition rng : Type := nat -> nat.

Definition next (g : rng) : rng := fun n => g (S n).

Definition choice {A} (pool : list A) (g : rng) : result (A * rng) :=
  match nth_error pool (g O mod length pool) with
  | Some a => Ok (a, next g)
  | None => Raise IndexError
  end.

(** The three pools that [SpiralsHandler.__init__] sets to constants and
    nothing reassigns. *)
Definition etas : list Q := [15 # 100; 1 # 10; 5 # 100].
Definition growth_rates : list Q := [7 # 10000; 8 # 10000; 9 # 10000; 10 # 10000].
Definition chiralities : list string := ["+"%string; "-"%string].

Record SpiralsHandler : Type := mkHandler {
  h_view_size        : point;
  max_active_spirals : Z;
  poly_vertices      : list (list point);
  spirals            : list Spiral
}.

Definition set_spirals (h : SpiralsHandler) (ss : list Spiral) : SpiralsHandler :=
  mkHandler (h_view_size h) (max_active_spirals h) (poly_vertices h) ss.

(** [sum([s.active for s in self.spirals])] *)
Definition active_count (ss : list Spiral) : Z :=
  Z.of_nat (length (filter active ss)).

Definition half (p : point) : point := (px p / 2, py p / 2).

(** [SpiralsHandler.add_random_spiral] *)
Definition add_random_spiral (h : SpiralsHandler) (g : rng)
  : result (SpiralsHandler * rng) :=
  if (active_count (spirals h) <? max_active_spirals h)%Z then
    '(pv, g1) <- choice (poly_vertices h) g ;;
    '(eta, g2) <- choice etas g1 ;;
    '(growth_rate, g3) <- choice growth_rates g2 ;;
    '(ch, g4) <- choice chiralities g3 ;;
    sp <- Spiral_init pv ch (h_view_size h) (half (h_view_size h)) eta growth_rate ;;
    Ok (set_spirals h (spirals h ++ [sp]), g4)
  else Ok (h, g).

(** [for i in range(n): spiral.step(dT)] *)
Fixpoint step_n (n : nat) (sp : Spiral) (dT : Q) : result Spiral :=
  match n with
  | O => Ok sp
  | S n' => sp' <- step sp dT ;; step_n n' sp' dT
  end.

(** A [for] loop over the spirals that updates each one in place; the first
    exception ends it. *)
Fixpoint for_each (f : Spiral -> result Spiral) (ss : list Spiral)
  : result (list Spiral) :=
  match ss with
  | [] => Ok []
  | sp :: rest => sp' <- f sp ;; rest' <- for_each f rest ;; Ok (sp' :: rest')
  end.

(** [SpiralsHandler.take_n_steps]; [dT] defaults to [int(1000/FPS)]. *)
Definition FPS : Z := 60.
Definition default_dT : Q := inject_Z (1000 / FPS).

Definition take_n_steps (h : SpiralsHandler) (n : nat) (dT : Q)
  : result SpiralsHandler :=
  ss <- for_each (fun sp => step_n n sp dT) (spirals h) ;;
  Ok (set_spirals h ss).

(** [SpiralsHandler.step] *)
Definition handler_step (h : SpiralsHandler) (dT : Q) : result SpiralsHandler :=
  ss <- for_each (fun sp => step sp dT) (spirals h) ;;
  Ok (set_spirals h (filter (fun sp => (0 <? length (lines sp))%nat) ss)).

(** [disable_random_spiral] marks one of the active spirals, an object that
    is also in [self.spirals]: the [k]-th active spiral of the list is the one
    whose flag is cleared. *)
Fixpoint deactivate_nth_active (k : nat) (ss : list Spiral) : list Spiral :=
  match ss with
  | [] => []
  | sp :: rest =>
      if active sp then
        match k with
        | O => set_active sp false :: rest
        | S k' => sp :: deactivate_nth_active k' rest
        end
      else sp :: deactivate_nth_active k rest
  end.

(** [SpiralsHandler.disable_random_spiral]; [random.choice] is called, and a
    draw used, only when there is an active spiral. *)
Definition disable_random_spiral (h : SpiralsHandler) (g : rng)
  : result (SpiralsHandler * rng) :=
  let active_spirals := filter active (spirals h) in
  if (0 <? length active_spirals)%nat then
    Ok (set_spirals h (deactivate_nth_active (g O mod length active_spirals)
                                             (spirals h)),
        next g)
  else Ok (h, g).

(** [SpiralsHandler.random_spiral_transition] *)
Definition random_spiral_transition (h : SpiralsHandler) (g : rng)
  : result (SpiralsHandler * rng) :=
  if (0 <? length (spirals h))%nat then
    '(h1, g1) <- disable_random_spiral h g ;;
    add_random_spiral h1 g1
  else Ok (h, g).

(** [SpiralsHandler.get_all_lines] *)
Definition get_all_lines (h : SpiralsHandler) : list line :=
  flat_map lines (spirals h).

Section Construction.

(** [rotate p i n] stands for [rotate(p, i*2*pi/n)]: sines and cosines are
    not rational, so the rotation is a parameter of the constructor. *)
Variable rotate : point -> nat -> nat -> point.

(** [SpiralsHandler.__init__] *)
Definition SpiralsHandler_init (view : point) (n_vertices_base_shapes : list nat)
    (max_active : Z) (g : rng) : result (SpiralsHandler * rng) :=
  let pvs := map (fun n => map (fun i => rotate (0, -1) i n) (seq 0 n))
                 n_vertices_base_shapes in
  add_random_spiral (mkHandler view max_active pvs []) g.

End Construction.

(** ** Notions of the specification *)

(** The vertex list that [Spiral.__init__] walks: reversed for ['-']
    (CounterClockwise), as given for ['+'] (Clockwise). *)
Definition traversal (ch : string) (pv : list point) : list point :=
  if String.eqb ch "-" then rev pv else pv.

(** A segment with its two end points exchanged. *)
Definition flip (l : line) : line := (snd l, fst l).

(** A closed ring walked backwards from its first segment: the first segment
    flipped, then the others from the last to the second, each flipped. *)
Definition reverse_ring (ls : list line) : list line :=
  match ls with
  | [] => []
  | l :: rest => flip l :: map flip (rev rest)
  end.

(** The middle of a segment, and the arithmetic mean of a list of points. *)
Definition midpoint (l : line) : point :=
  ((px (fst l) + px (snd l)) / 2, (py (fst l) + py (snd l)) / 2).

Definition mean_point (ps : list point) : point :=
  pscale (1 / inject_Z (Z.of_nat (length ps))) (fold_right padd origin ps).

(** The last [n] segments of a list (all of them when there are fewer). *)
Definition last_segments (n : nat) (ls : list line) : list line :=
  skipn (length ls - n) ls.

(** The pivot of the specification: the mean of the midpoints of the last N
    segments, and [center] when there is no segment. *)
Definition pivot (sp : Spiral) : point :=
  match lines sp with
  | [] => center sp
  | _ :: _ => mean_point (map midpoint (last_segments (n_vert sp) (lines sp)))
  end.

(** [center + s * (segment - pivot)], on both end points. *)
Definition similarity (c : point) (s : Q) (pv : point) (l : line) : line :=
  (padd c (pscale s (psub (fst l) pv)), padd c (pscale s (psub (snd l) pv))).

(** The segment has an end point with x strictly inside (0, width), or one
    with y strictly inside (0, height). *)
Definition inside_on_some_axis (view : point) (l : line) : Prop :=
  (0 < px (fst l) /\ px (fst l) < px view) \/
  (0 < py (fst l) /\ py (fst l) < py view) \/
  (0 < px (snd l) /\ px (snd l) < px view) \/
  (0 < py (snd l) /\ py (snd l) < py view).

(** What the growth loop can do from the list [ls]: return [ls] extended,
    unchanged or within the cap; exit the process; or fail on an index. *)
Inductive loop_outcome (ls : list line) : result (list line) -> Prop :=
| loop_returns ls' new :
    ls' = ls ++ new ->
    (new = [] \/ (Z.of_nat (length ls') <= MAX_LINES)%Z) ->
    loop_outcome ls (Ok ls')
| loop_exits : loop_outcome ls (Raise (SystemExit "Too many lines in spiral"))
| loop_index_error : loop_outcome ls (Raise IndexError)
| loop_timeout : loop_outcome ls Timeout.

(** A polyline: every segment starts where the one before it ends. *)
Definition chained (ls : list line) : Prop :=
  forall i l l',
    nth_error ls i = Some l -> nth_error ls (S i) = Some l' -> snd l = fst l'.

(** The squared length of a segment. *)
Definition length_sq (l : line) : Q := norm_sq (psub (fst l) (snd l)).

(** An end point strictly inside the view rectangle. *)
Definition in_view (view p : point) : Prop :=
  0 < px p /\ px p < px view /\ 0 < py p /\ py p < py view.

(** The ring through the vertices [vs] that starts from the vertex [prev]:
    the initial ring of a base shape is the ring that starts from its last
    vertex (see [initial_lines_ring]). *)
Fixpoint ring_from (c prev : point) (vs : list point) : list line :=
  match vs with
  | [] => []
  | v :: vs' => (padd prev c, padd v c) :: ring_from c v vs'
  end.

(** ** Concrete inputs *)

(** The unit square and a triangle, as base shapes. *)
Definition square : list point := [(0, -1); (1, 0); (0, 1); (-1, 0)].
Definition triangle : list point := [(0, -1); (1, 1); (-1, 1)].

(** The spiral that [Spiral(square, '+', (640,640), (320,320), 0.1, 0.001)]
    builds. *)
Definition square_spiral : Spiral :=
  mkSpiral "+" (640, 640) (320, 320) (1 # 10) (1 # 1000) true 4
           (initial_lines square (320, 320)).

(** [rotate(p, i*2*pi/n)] for [n = 4], where it is exact: [i] quarter turns.
    It is used at [n = 4] only. *)
Definition rotate_quarter (p : point) (i n : nat) : point :=
  Nat.iter i (fun q => (- py q, px q)) p.

(** A triangle away from the origin, and the spiral built from it: its
    windowed centroid is about 100 units from its center. *)
Definition far_triangle : list point := [(100, 0); (101, 0); (100, 1)].

Definition far_spiral : Spiral :=
  mkSpiral "+" (640, 640) (320, 320) (1 # 10) (1 # 1000) true 3
           (initial_lines far_triangle (320, 320)).

(** A field with the square as its only base shape and no spiral yet. *)
Definition empty_field : SpiralsHandler :=
  mkHandler (640, 640) 3 [square] [].

(** A field that holds the square spiral, and one that holds it retired. *)
Definition square_field : SpiralsHandler :=
  mkHandler (640, 640) 3 [square] [square_spiral].

Definition retired_field : SpiralsHandler :=
  mkHandler (640, 640) 3 [square] [set_active square_spiral false].

(** * Properties *)

(** ** Comparisons *)

Lemma Qltb_lt (x y : Q) : Qltb x y = true <-> x < y.
Proof. unfold Qltb, Qlt. apply Z.ltb_lt. Qed.

Lemma Qltb_ge (x y : Q) : Qltb x y = false <-> y <= x.
Proof. unfold Qltb, Qle. apply Z.ltb_ge. Qed.

Lemma valid_chirality_spec (ch : string) :
  valid_chirality ch = true <-> ch = "+"%string \/ ch = "-"%string.
Proof.
  unfold valid_chirality. rewrite orb_true_iff, !String.eqb_eq. tauto.
Qed.

(** ** Python indexing *)

Lemma py_index_nonneg {A} (l : list A) (i : nat) :
  py_index l (Z.of_nat i) = nth_error l i.
Proof.
  unfold py_index. destruct (Z.ltb_spec (Z.of_nat i) 0); [lia|].
  now rewrite Nat2Z.id.
Qed.

Lemma py_index_last {A} (l : list A) :
  py_index l (-1) = nth_error l (length l - 1) /\
  (l = [] -> py_index l (-1) = None).
Proof.
  unfold py_index. simpl (-1 <? 0)%Z. cbv iota. split.
  - destruct l as [|a l]; [reflexivity|].
    destruct (Z.ltb_spec (-1 + Z.of_nat (length (a :: l))) 0) as [H|H].
    + simpl length in H. lia.
    + replace (Z.to_nat (-1 + Z.of_nat (length (a :: l))))
        with (length (a :: l) - 1)%nat by lia.
      reflexivity.
  - intros ->. reflexivity.
Qed.

Lemma vertex_at_nth (pv : list point) (i : nat) :
  (i < length pv)%nat ->
  vertex_at pv (Z.of_nat i) = nth i pv origin.
Proof.
  intros Hi. unfold vertex_at. rewrite py_index_nonneg.
  destruct (nth_error pv i) eqn:E.
  - symmetry. now apply nth_error_nth.
  - apply nth_error_None in E. lia.
Qed.

Lemma vertex_at_pred (pv : list point) (i : nat) :
  (i < length pv)%nat ->
  vertex_at pv (Z.of_nat i - 1) =
  nth (match i with O => length pv - 1 | S j => j end) pv origin.
Proof.
  intros Hi. destruct i as [|j].
  - unfold vertex_at. change (Z.of_nat 0 - 1)%Z with (-1)%Z.
    destruct (py_index_last pv) as [-> _].
    destruct (nth_error pv (length pv - 1)) eqn:E.
    + symmetry. now apply nth_error_nth.
    + apply nth_error_None in E. lia.
  - replace (Z.of_nat (S j) - 1)%Z with (Z.of_nat j) by lia.
    apply vertex_at_nth. lia.
Qed.

(** ** The initial ring *)

Lemma initial_lines_length (pv : list point) (c : point) :
  length (initial_lines pv c) = length pv.
Proof. unfold initial_lines. now rewrite length_map, length_seq. Qed.

Lemma initial_lines_nth (pv : list point) (c : point) (i : nat) (d : line) :
  (i < length pv)%nat ->
  nth i (initial_lines pv c) d =
  (padd (nth (match i with O => length pv - 1 | S j => j end) pv origin) c,
   padd (nth i pv origin) c).
Proof.
  intros Hi. unfold initial_lines.
  rewrite (nth_indep _ d (initial_line pv c O))
    by now rewrite length_map, length_seq.
  rewrite map_nth, seq_nth by assumption. simpl (0 + i)%nat.
  unfold initial_line. now rewrite vertex_at_pred, vertex_at_nth.
Qed.

Lemma Spiral_init_ok (pv : list point) (ch : string) (view c : point) (e g : Q) :
  valid_chirality ch = true -> 0 < e -> e < 1 -> 0 < g ->
  Spiral_init pv ch view c e g =
  Ok (mkSpiral ch view c e g true (length pv) (initial_lines (traversal ch pv) c)).
Proof.
  intros Hch He0 He1 Hg. unfold Spiral_init, traversal.
  rewrite Hch. apply Qltb_lt in He0, He1, Hg.
  now rewrite He0, He1, Hg.
Qed.

Lemma traversal_length (ch : string) (pv : list point) :
  length (traversal ch pv) = length pv.
Proof. unfold traversal. destruct (String.eqb ch "-"%string); auto using length_rev. Qed.

Lemma reverse_ring_length (ls : list line) :
  length (reverse_ring ls) = length ls.
Proof.
  destruct ls as [|l rest]; [reflexivity|].
  simpl. now rewrite length_map, length_rev.
Qed.

Lemma reverse_ring_nth (ls : list line) (d : line) (i : nat) :
  (i < length ls)%nat ->
  nth i (reverse_ring ls) (flip d) =
  flip (nth (match i with O => O | S _ => length ls - i end) ls d).
Proof.
  destruct ls as [|l rest]; simpl length; [lia|]. intros Hi.
  destruct i as [|j]; [reflexivity|].
  simpl reverse_ring. cbn [nth].
  rewrite map_nth, rev_nth by lia.
  replace (S (length rest) - S j)%nat with (S (length rest - S j)) by lia.
  reflexivity.
Qed.

Lemma initial_lines_rev (pv : list point) (c : point) :
  initial_lines (rev pv) c = reverse_ring (initial_lines pv c).
Proof.
  pose (d := ((origin, origin) : line)).
  apply (nth_ext _ _ d (flip d)).
  - now rewrite reverse_ring_length, !initial_lines_length, length_rev.
  - intros i Hi. rewrite initial_lines_length, length_rev in Hi.
    rewrite reverse_ring_nth by now rewrite initial_lines_length.
    rewrite initial_lines_length.
    rewrite initial_lines_nth by now rewrite length_rev.
    rewrite length_rev.
    destruct i as [|j].
    + rewrite initial_lines_nth by assumption.
      rewrite !rev_nth by lia.
      replace (length pv - S (length pv - 1))%nat with O by lia.
      unfold flip; simpl.
      now replace (length pv - 0 - 1)%nat with (length pv - 1)%nat by lia.
    + rewrite initial_lines_nth by lia.
      rewrite !rev_nth by lia.
      destruct (length pv - S j)%nat as [|m] eqn:E; [lia|].
      replace (length pv - S (S j))%nat with m by lia.
      reflexivity.
Qed.

Lemma cyclic_pred (n i : nat) :
  (i < n)%nat ->
  ((i + n - 1) mod n)%nat = match i with O => (n - 1)%nat | S j => j end.
Proof.
  intros Hi. destruct i as [|j].
  - apply Nat.mod_small. lia.
  - replace (S j + n - 1)%nat with (j + 1 * n)%nat by lia.
    rewrite Nat.Div0.mod_add. apply Nat.mod_small. lia.
Qed.

Lemma cyclic_succ (n i : nat) :
  (i < n)%nat ->
  (S i mod n)%nat = if (S i =? n)%nat then O else S i.
Proof.
  intros Hi. destruct (Nat.eqb_spec (S i) n) as [E|E].
  - rewrite E. apply Nat.Div0.mod_same.
  - apply Nat.mod_small. lia.
Qed.

(** C2.  A spiral built from an N-vertex base shape (N >= 3) with valid
    parameters has exactly N segments.  Segment [i] runs from vertex [i-1]
    to vertex [i] of the traversed shape (cyclically), both translated by
    [center]; so the end point of each segment is the start point of the
    next one, and the end point of the last is the start point of the
    first. *)
Theorem initial_ring_closed (pv : list point) (ch : string) (view c : point)
    (e g : Q) :
  (3 <= length pv)%nat ->
  ch = "+"%string \/ ch = "-"%string -> 0 < e -> e < 1 -> 0 < g ->
  exists sp,
    Spiral_init pv ch view c e g = Ok sp /\
    length (lines sp) = length pv /\
    (forall i, (i < length pv)%nat ->
       nth_error (lines sp) i =
       Some (padd (nth ((i + length pv - 1) mod length pv) (traversal ch pv) origin) c,
             padd (nth i (traversal ch pv) origin) c)) /\
    (forall i, (i < length pv)%nat ->
       exists l l',
         nth_error (lines sp) i = Some l /\
         nth_error (lines sp) (S i mod length pv) = Some l' /\
         snd l = fst l').
Proof.
  intros HN Hch He0 He1 Hg.
  apply valid_chirality_spec in Hch.
  eexists. split; [now apply Spiral_init_ok|]. cbn [lines].
  pose (d := ((origin, origin) : line)).
  assert (Hnth : forall i, (i < length pv)%nat ->
            nth_error (initial_lines (traversal ch pv) c) i =
            Some (padd (nth ((i + length pv - 1) mod length pv)
                            (traversal ch pv) origin) c,
                  padd (nth i (traversal ch pv) origin) c)).
  { intros i Hi.
    rewrite (nth_error_nth' _ d)
      by now rewrite initial_lines_length, traversal_length.
    rewrite initial_lines_nth by now rewrite traversal_length.
    now rewrite traversal_length, cyclic_pred. }
  split; [now rewrite initial_lines_length, traversal_length|].
  split; [exact Hnth|].
  intros i Hi.
  assert (Hs : (S i mod length pv < length pv)%nat)
    by (apply Nat.mod_upper_bound; lia).
  do 2 eexists. split; [now apply Hnth|]. split; [now apply Hnth|].
  cbn [fst snd]. f_equal. f_equal.
  rewrite cyclic_pred by assumption.
  rewrite cyclic_succ by assumption.
  destruct (Nat.eqb_spec (S i) (length pv)); [lia|reflexivity].
Qed.

Lemma initial_ring_closed_witness :
  exists sp,
    Spiral_init square "+"%string (640, 640) (320, 320) (1 # 10) (1 # 1000) = Ok sp /\
    length (lines sp) = length square /\
    (forall i, (i < length square)%nat ->
       nth_error (lines sp) i =
       Some (padd (nth ((i + length square - 1) mod length square)
                       (traversal "+"%string square) origin) (320, 320),
             padd (nth i (traversal "+"%string square) origin) (320, 320))) /\
    (forall i, (i < length square)%nat ->
       exists l l',
         nth_error (lines sp) i = Some l /\
         nth_error (lines sp) (S i mod length square) = Some l' /\
         snd l = fst l').
Proof.
  apply (initial_ring_closed square "+"%string (640, 640) (320, 320));
    [simpl; lia | left; reflexivity | reflexivity | reflexivity | reflexivity].
Defined.

(** C6, as stated, fails: for the triangle the CounterClockwise ring is not
    the reversed list of the Clockwise ring, and not the reversed list with
    every segment flipped either. *)
Lemma chirality_reverse_counterexample :
  exists cw ccw,
    Spiral_init triangle "+"%string (640, 640) (320, 320) (1 # 10) (1 # 1000) = Ok cw /\
    Spiral_init triangle "-"%string (640, 640) (320, 320) (1 # 10) (1 # 1000) = Ok ccw /\
    lines ccw <> rev (lines cw) /\
    lines ccw <> map flip (rev (lines cw)).
Proof.
  do 2 eexists. split; [reflexivity|]. split; [reflexivity|].
  split; vm_compute; discriminate.
Qed.

(** C6, amended.  For the same base shape, center and (valid) parameters,
    the CounterClockwise ring is the Clockwise ring walked backwards from
    its first segment: the first Clockwise segment with its end points
    exchanged, followed by the remaining Clockwise segments from the last to
    the second, each with its end points exchanged. *)
Theorem chirality_reverses_ring (pv : list point) (view c : point) (e g : Q) :
  0 < e -> e < 1 -> 0 < g ->
  exists cw ccw,
    Spiral_init pv "+"%string view c e g = Ok cw /\
    Spiral_init pv "-"%string view c e g = Ok ccw /\
    lines ccw = reverse_ring (lines cw).
Proof.
  intros He0 He1 Hg.
  do 2 eexists. split; [now apply Spiral_init_ok|].
  split; [now apply Spiral_init_ok|].
  cbn [lines]. unfold traversal. simpl String.eqb. cbv iota.
  apply initial_lines_rev.
Qed.

Lemma chirality_reverses_ring_witness :
  exists cw ccw,
    Spiral_init triangle "+"%string (640, 640) (320, 320) (1 # 10) (1 # 1000) = Ok cw /\
    Spiral_init triangle "-"%string (640, 640) (320, 320) (1 # 10) (1 # 1000) = Ok ccw /\
    lines ccw = reverse_ring (lines cw).
Proof.
  apply (chirality_reverses_ring triangle (640, 640) (320, 320));
    reflexivity.
Defined.

(** C7.  Construction fails, with the AssertionError that the specification
    calls InvalidParameter, exactly when the chirality is neither ['+'] nor
    ['-'], or eta is not in the open interval (0,1), or growth_rate <= 0; and
    it succeeds exactly when none of the three holds. *)
Theorem Spiral_init_fails_iff (pv : list point) (ch : string) (view c : point)
    (e g : Q) :
  let invalid :=
    ~ (ch = "+"%string \/ ch = "-"%string) \/ ~ (0 < e /\ e < 1) \/ g <= 0 in
  (Spiral_init pv ch view c e g = Raise AssertionError <-> invalid) /\
  ((exists sp, Spiral_init pv ch view c e g = Ok sp) <-> ~ invalid).
Proof.
  cbv zeta. rewrite <- valid_chirality_spec. unfold Spiral_init.
  destruct (valid_chirality ch); cbn [negb].
  2:{ split; split; try (intros _; left; discriminate); try reflexivity.
      - intros [sp H]; discriminate.
      - intros H; exfalso; apply H; left; discriminate. }
  destruct (Qltb 0 e) eqn:E0; cbn [andb negb].
  2:{ apply Qltb_ge in E0.
      assert (~ (0 < e /\ e < 1)) by (intros [H _]; now apply Qlt_not_le in H).
      split; split; try reflexivity; try tauto.
      intros [sp H']; discriminate. }
  destruct (Qltb e 1) eqn:E1; cbn [negb].
  2:{ apply Qltb_ge in E1.
      assert (~ (0 < e /\ e < 1)) by (intros [_ H]; now apply Qlt_not_le in H).
      split; split; try reflexivity; try tauto.
      intros [sp H']; discriminate. }
  apply Qltb_lt in E0, E1.
  destruct (Qltb 0 g) eqn:Eg; cbn [negb].
  - apply Qltb_lt in Eg.
    assert (~ g <= 0) by now apply Qlt_not_le.
    split; split.
    + discriminate.
    + intros [H'|[H'|H']]; [exfalso; now apply H' | exfalso; now apply H'
                            | contradiction].
    + intros _ [H'|[H'|H']]; [now apply H' | now apply H' | contradiction].
    + intros _. eexists; reflexivity.
  - apply Qltb_ge in Eg.
    split; split; try reflexivity; try tauto.
    intros [sp H']; discriminate.
Qed.

(** ** The growth loop *)

Lemma append_line_length (n : nat) (e : Q) (ls ls' : list line) :
  append_line n e ls = Ok ls' -> length ls' = S (length ls).
Proof.
  unfold append_line.
  destruct (py_index ls _); [|discriminate].
  destruct (py_index ls _); [|discriminate].
  intros [= <-]. rewrite length_app. simpl. lia.
Qed.

Lemma append_lines_length (k n : nat) (e : Q) (ls ls' : list line) :
  append_lines k n e ls = Ok ls' -> length ls' = (length ls + k)%nat.
Proof.
  revert ls. induction k as [|k IH]; intros ls; simpl.
  - intros [= <-]. lia.
  - destruct (append_line n e ls) as [l1| |] eqn:E; simpl; try discriminate.
    intros H. apply IH in H. apply append_line_length in E. lia.
Qed.

Lemma append_line_prefix (n : nat) (e : Q) (ls ls' : list line) :
  append_line n e ls = Ok ls' -> exists l, ls' = ls ++ [l].
Proof.
  unfold append_line.
  destruct (py_index ls _); [|discriminate].
  destruct (py_index ls _); [|discriminate].
  intros [= <-]. eexists; reflexivity.
Qed.

Lemma append_lines_prefix (k n : nat) (e : Q) (ls ls' : list line) :
  append_lines k n e ls = Ok ls' -> exists new, ls' = ls ++ new.
Proof.
  revert ls. induction k as [|k IH]; intros ls; simpl.
  - intros [= <-]. exists []. now rewrite app_nil_r.
  - destruct (append_line n e ls) as [l1| |] eqn:E; simpl; try discriminate.
    intros H. apply IH in H as [new ->].
    apply append_line_prefix in E as [l ->].
    exists (l :: new). now rewrite <- app_assoc.
Qed.

Lemma append_lines_error (k n : nat) (e : Q) (ls : list line) :
  (exists ls', append_lines k n e ls = Ok ls') \/
  append_lines k n e ls = Raise IndexError.
Proof.
  revert ls. induction k as [|k IH]; intros ls; simpl.
  - left. eexists; reflexivity.
  - unfold append_line.
    destruct (py_index ls _); [|now right].
    destruct (py_index ls _); [|now right].
    simpl. apply IH.
Qed.

Lemma add_lines_outcome (fuel n : nat) (e : Q) (ls : list line) :
  loop_outcome ls (add_lines fuel n e ls).
Proof.
  revert ls. induction fuel as [|fuel IH]; intros ls; simpl.
  - constructor.
  - destruct (py_index ls (-1)); [|constructor].
    destruct (norm_gt _ _).
    2:{ apply loop_returns with (new := []); [now rewrite app_nil_r | now left]. }
    destruct (append_lines_error n n e ls) as [[ls1 E]| ->]; [|constructor].
    rewrite E; simpl.
    destruct (Z.ltb_spec MAX_LINES (Z.of_nat (length ls1))); [constructor|].
    apply append_lines_prefix in E as [new ->].
    specialize (IH (ls ++ new)).
    inversion IH as [ls' new' Hls' Hcap Heq| | |]; try constructor.
    apply loop_returns with (new := new ++ new').
    + now rewrite app_assoc.
    + right. destruct Hcap as [->|Hcap]; [|assumption].
      rewrite app_nil_r in Hls'. now subst ls'.
Qed.

(** With a base shape of at least one vertex every pass makes the list
    longer, so the loop ends before [MAX_LINES + 2 - len] evaluations of its
    condition. *)
Lemma add_lines_terminates (n : nat) (e : Q) :
  (1 <= n)%nat ->
  forall fuel ls,
    (MAX_LINES + 1 - Z.of_nat (length ls) < Z.of_nat fuel)%Z ->
    (0 < Z.of_nat fuel)%Z ->
    add_lines fuel n e ls <> Timeout.
Proof.
  intros Hn. induction fuel as [|fuel IH]; intros ls Hf Hpos; [lia|].
  simpl.
  destruct (py_index ls (-1)); [|discriminate].
  destruct (norm_gt _ _); [|discriminate].
  destruct (append_lines_error n n e ls) as [[ls1 E]| ->]; [|discriminate].
  rewrite E; simpl.
  destruct (Z.ltb_spec MAX_LINES (Z.of_nat (length ls1))); [discriminate|].
  apply append_lines_length in E.
  apply IH; lia.
Qed.

(** More fuel does not change the outcome of a run that ended. *)
Lemma add_lines_fuel (n : nat) (e : Q) (fuel fuel' : nat) (ls : list line) :
  (fuel <= fuel')%nat ->
  add_lines fuel n e ls <> Timeout ->
  add_lines fuel' n e ls = add_lines fuel n e ls.
Proof.
  revert fuel' ls. induction fuel as [|fuel IH]; intros fuel' ls Hle Hne.
  - now contradiction Hne.
  - destruct fuel' as [|fuel']; [lia|]. simpl in *.
    destruct (py_index ls (-1)); [|reflexivity].
    destruct (norm_gt _ _); [|reflexivity].
    destruct (append_lines n n e ls) as [ls1| |]; simpl in *; try reflexivity.
    destruct (MAX_LINES <? Z.of_nat (length ls1))%Z; [reflexivity|].
    apply IH; [lia|assumption].
Qed.

(** With an empty base shape a pass appends nothing: once the condition
    holds the Python loop never ends, and the model times out on every
    fuel. *)
Lemma add_lines_diverges (e : Q) (ls : list line) (last : line) :
  py_index ls (-1) = Some last ->
  norm_gt (psub (fst last) (snd last)) MIN_LENGHT = true ->
  (Z.of_nat (length ls) <= MAX_LINES)%Z ->
  forall fuel, add_lines fuel O e ls = Timeout.
Proof.
  intros Hlast Hlong Hcap. induction fuel as [|fuel IH]; [reflexivity|].
  simpl. rewrite Hlast, Hlong.
  apply Z.ltb_ge in Hcap. now rewrite Hcap.
Qed.

Lemma step_fuel_enough (n : nat) (e : Q) (ls : list line) :
  (1 <= n)%nat -> add_lines step_fuel n e ls <> Timeout.
Proof.
  intros Hn. apply add_lines_terminates; [assumption| |];
    unfold step_fuel; rewrite Nat2Z.inj_add, Z2Nat.id;
    unfold MAX_LINES; lia.
Qed.

(** ** The pivot *)

Lemma norm_sq_peq (p q : point) : peq p q -> norm_sq p == norm_sq q.
Proof.
  destruct p as [a b], q as [c d]; unfold peq, norm_sq; simpl.
  intros [H1 H2]. rewrite H1, H2. reflexivity.
Qed.

Lemma psub_peq (p q c : point) : peq p q -> peq (psub p c) (psub q c).
Proof.
  destruct p as [a b], q as [a' b'], c as [x y]; unfold peq, psub; simpl.
  intros [H1 H2]. rewrite H1, H2. split; reflexivity.
Qed.

Lemma Qsum_centers_px (ls : list line) :
  Qsum (map px (map (fun l => eta_point l (1 # 2)) ls)) ==
  px (fold_right padd origin (map midpoint ls)).
Proof.
  induction ls as [|[[a b] [c d]] ls IH]; simpl; [reflexivity|].
  unfold Qsum in IH. rewrite IH. field.
Qed.

Lemma Qsum_centers_py (ls : list line) :
  Qsum (map py (map (fun l => eta_point l (1 # 2)) ls)) ==
  py (fold_right padd origin (map midpoint ls)).
Proof.
  induction ls as [|[[a b] [c d]] ls IH]; simpl; [reflexivity|].
  unfold Qsum in IH. rewrite IH. field.
Qed.

(** [average_point_of_lines] is the mean of the midpoints. *)
Lemma average_point_is_mean (ls : list line) :
  peq (average_point_of_lines ls) (mean_point (map midpoint ls)).
Proof.
  unfold average_point_of_lines, mean_point, average, peq, pscale.
  cbn [px py fst snd]. rewrite !length_map.
  rewrite Qsum_centers_px, Qsum_centers_py.
  fold (px (fold_right padd origin (map midpoint ls))).
  fold (py (fold_right padd origin (map midpoint ls))).
  unfold Qdiv. split; ring.
Qed.

Lemma spiral_center_is_pivot (sp : Spiral) :
  (1 <= n_vert sp)%nat -> peq (_spiral_center sp) (pivot sp).
Proof.
  intros Hn. unfold _spiral_center, pivot.
  destruct (lines sp) as [|l ls]; [split; reflexivity|].
  destruct (n_vert sp) as [|n]; [lia|].
  apply average_point_is_mean.
Qed.

Lemma rescale_similarity (s : Q) (pc pv c : point) (l : line) :
  peq pc pv -> leq (rescale s pc c l) (similarity c s pv l).
Proof.
  destruct pc as [a b], pv as [a' b'], c as [x y], l as [[p q] [u v]].
  cbv [peq leq rescale similarity ladd lscale lsub padd psub pscale px py
       fst snd].
  intros [H1 H2]. repeat split; rewrite ?H1, ?H2; ring.
Qed.

Lemma Forall2_map_r {A B} (R : A -> B -> Prop) (f : A -> B) (l : list A) :
  (forall a, R a (f a)) -> Forall2 R l (map f l).
Proof. intros H. induction l; simpl; constructor; auto. Qed.

Lemma not_degenerate_iff (sp : Spiral) :
  (1 <= n_vert sp)%nat ->
  norm_gt (psub (_spiral_center sp) (center sp)) MAX_SPIRAL_CENTER_DEVIATION = false
  <-> ~ MAX_SPIRAL_CENTER_DEVIATION * MAX_SPIRAL_CENTER_DEVIATION
        < norm_sq (psub (pivot sp) (center sp)).
Proof.
  intros Hn. unfold norm_gt.
  rewrite <- (norm_sq_peq _ _ (psub_peq _ _ _ (spiral_center_is_pivot sp Hn))).
  rewrite <- Qltb_lt. destruct (Qltb _ _); split; try congruence; tauto.
Qed.

Lemma grow_appends (sp : Spiral) (ls before : list line) :
  grow sp ls = Ok before ->
  exists new, before = ls ++ new /\ (active sp = false -> new = []).
Proof.
  unfold grow. destruct (active sp).
  - pose proof (add_lines_outcome step_fuel (n_vert sp) (eta sp) ls) as Hout.
    remember (add_lines step_fuel (n_vert sp) (eta sp) ls) as r eqn:Er.
    clear Er. intros H.
    destruct Hout as [ls' new Hls' _| | |]; try discriminate.
    injection H as <-. exists new. split; [assumption|discriminate].
  - intros [= <-]. exists []. split; [now rewrite app_nil_r|reflexivity].
Qed.

(** C3.  When the degeneracy check does not cut the call short (the pivot is
    at most MAX_SPIRAL_CENTER_DEVIATION away from center), every segment
    there was is replaced, in place, by [center + s * (segment - pivot)],
    with [s = 1 + growth_rate * dt]; the pivot is the mean of the midpoints
    of the last N segments, and is [center] when there is no segment.  The
    call goes on from that list, and the list of the spiral it returns is
    that list, followed by the segments that growth appended (none for a
    spiral that is not active), with the segments that fail the visibility
    test removed. *)
Theorem rescale_about_pivot (sp : Spiral) (dT : Q) :
  (1 <= n_vert sp)%nat ->
  ~ MAX_SPIRAL_CENTER_DEVIATION * MAX_SPIRAL_CENTER_DEVIATION
    < norm_sq (psub (pivot sp) (center sp)) ->
  exists rescaled,
    Forall2
      (fun l l' =>
         leq l' (similarity (center sp) (1 + growth_rate sp * dT) (pivot sp) l))
      (lines sp) rescaled /\
    step sp dT = grow_and_cull sp rescaled /\
    forall sp',
      step sp dT = Ok sp' ->
      exists new,
        sp' = set_lines sp (filter (_is_line_visible sp) (rescaled ++ new)) /\
        lines sp' = filter (_is_line_visible sp) (rescaled ++ new) /\
        (active sp = false -> new = []).
Proof.
  intros Hn Hdev. apply not_degenerate_iff in Hdev; [|assumption].
  unfold step. rewrite Hdev.
  eexists. split; [|split; [reflexivity|]].
  - apply Forall2_map_r. intros l.
    apply rescale_similarity. now apply spiral_center_is_pivot.
  - intros sp'. unfold grow_and_cull.
    destruct (grow sp _) as [before| |] eqn:E; cbn [bind]; try discriminate.
    intros [= <-]. apply grow_appends in E as (new & -> & Hnew).
    exists new. repeat split. exact Hnew.
Qed.

Lemma rescale_about_pivot_witness :
  exists sp' rescaled new,
    step square_spiral 16 = Ok sp' /\
    Forall2
      (fun l l' =>
         leq l' (similarity (center square_spiral)
                            (1 + growth_rate square_spiral * 16)
                            (pivot square_spiral) l))
      (lines square_spiral) rescaled /\
    lines sp' = filter (_is_line_visible square_spiral) (rescaled ++ new).
Proof.
  assert (E : exists sp', step square_spiral 16 = Ok sp')
    by (eexists; vm_compute; reflexivity).
  destruct E as [sp' E].
  destruct (rescale_about_pivot square_spiral 16) as (rescaled & H1 & _ & H2).
  - simpl. lia.
  - vm_compute. discriminate.
  - destruct (H2 sp' E) as (new & _ & H3 & _).
    exists sp', rescaled, new. repeat split; assumption.
Defined.

(** ** The degeneracy check *)

(** C4.  If, when [step] is called, the pivot (the windowed centroid) is more
    than MAX_SPIRAL_CENTER_DEVIATION = 10 away from center, [step] returns the
    spiral with no segment and nothing else changed: no rescaling, growth or
    culling is run, whatever they would have done. *)
Theorem degenerate_spiral_cleared (sp : Spiral) (dT : Q) :
  MAX_SPIRAL_CENTER_DEVIATION * MAX_SPIRAL_CENTER_DEVIATION
    < norm_sq (psub (_spiral_center sp) (center sp)) ->
  step sp dT = Ok (set_lines sp []) /\
  lines (set_lines sp []) = [] /\
  MAX_SPIRAL_CENTER_DEVIATION = 10.
Proof.
  intros H. apply Qltb_lt in H. unfold step, norm_gt. rewrite H.
  repeat split.
Qed.

Lemma degenerate_spiral_cleared_witness :
  step far_spiral 16 = Ok (set_lines far_spiral []) /\
  lines (set_lines far_spiral []) = [] /\
  MAX_SPIRAL_CENTER_DEVIATION = 10.
Proof.
  apply (degenerate_spiral_cleared far_spiral 16).
  vm_compute. reflexivity.
Defined.

(** ** Culling *)

Lemma is_line_visible_spec (sp : Spiral) (l : line) :
  _is_line_visible sp l = true <-> inside_on_some_axis (view_size sp) l.
Proof.
  unfold _is_line_visible, inside_on_some_axis.
  rewrite !orb_true_iff, !andb_true_iff, !Qltb_lt. tauto.
Qed.

Lemma step_not_degenerate (sp : Spiral) (dT : Q) :
  norm_gt (psub (_spiral_center sp) (center sp)) MAX_SPIRAL_CENTER_DEVIATION = false ->
  step sp dT =
  grow_and_cull sp
    (map (rescale (1 + growth_rate sp * dT) (_spiral_center sp) (center sp))
         (lines sp)).
Proof. intros H. unfold step. now rewrite H. Qed.

(** C5.  In a call of [step] that gets past the degeneracy check and returns,
    the spiral returned is the one given with its segment list replaced by the
    segments, in order, that pass the visibility test among those present
    after rescaling and growth.  A segment passes the test exactly when one
    of its end points has x strictly inside (0, width) or y strictly inside
    (0, height); it is removed exactly when none of the four holds.  Nothing
    else of the spiral changes, so a removed segment is kept nowhere and no
    later operation can put it back. *)
Theorem culling_exact (sp sp' : Spiral) (dT : Q) :
  norm_gt (psub (_spiral_center sp) (center sp)) MAX_SPIRAL_CENTER_DEVIATION = false ->
  step sp dT = Ok sp' ->
  exists before,
    grow sp (map (rescale (1 + growth_rate sp * dT) (_spiral_center sp) (center sp))
                 (lines sp)) = Ok before /\
    sp' = set_lines sp (filter (_is_line_visible sp) before) /\
    (forall l, _is_line_visible sp l = false <->
               ~ (0 < px (fst l) /\ px (fst l) < px (view_size sp)) /\
               ~ (0 < py (fst l) /\ py (fst l) < py (view_size sp)) /\
               ~ (0 < px (snd l) /\ px (snd l) < px (view_size sp)) /\
               ~ (0 < py (snd l) /\ py (snd l) < py (view_size sp))) /\
    (forall l, In l (lines sp') <->
               In l before /\ inside_on_some_axis (view_size sp) l) /\
    (forall l, In l before -> ~ inside_on_some_axis (view_size sp) l ->
               ~ In l (lines sp')).
Proof.
  intros Hdev Hstep. rewrite step_not_degenerate in Hstep by assumption.
  unfold grow_and_cull in Hstep.
  destruct (grow sp _) as [before| |]; simpl in Hstep; try discriminate.
  injection Hstep as <-.
  exists before. split; [reflexivity|]. split; [reflexivity|].
  assert (Hin : forall l, In l (lines (set_lines sp (filter (_is_line_visible sp) before)))
                 <-> In l before /\ inside_on_some_axis (view_size sp) l).
  { intros l. cbn [lines set_lines].
    now rewrite filter_In, is_line_visible_spec. }
  split; [|split; [exact Hin|]].
  - intros l. rewrite <- not_true_iff_false, is_line_visible_spec.
    unfold inside_on_some_axis. tauto.
  - intros l _ Hout Hl. apply Hin in Hl. tauto.
Qed.

Lemma culling_exact_witness :
  exists sp', step square_spiral 16 = Ok sp' /\
  exists before,
    grow square_spiral
         (map (rescale (1 + growth_rate square_spiral * 16)
                       (_spiral_center square_spiral) (center square_spiral))
              (lines square_spiral)) = Ok before /\
    sp' = set_lines square_spiral (filter (_is_line_visible square_spiral) before).
Proof.
  assert (E : exists sp', step square_spiral 16 = Ok sp')
    by (eexists; vm_compute; reflexivity).
  destruct E as [sp' E]. exists sp'. split; [exact E|].
  destruct (culling_exact square_spiral sp' 16) as (before & H1 & H2 & _);
    [vm_compute; reflexivity | exact E |].
  exists before. split; assumption.
Defined.

(** ** Retired spirals *)

(** C9.  A call of [step] on a spiral that is not active always returns, and
    the spiral returned is still not active and has at most as many segments
    as before: rescaling keeps the count, the growth loop is skipped, and
    the degeneracy check and the culling only remove segments.  This holds
    for every [dt] and every state. *)
Theorem retired_never_regrows (sp : Spiral) (dT : Q) :
  active sp = false ->
  exists sp',
    step sp dT = Ok sp' /\
    active sp' = false /\
    (length (lines sp') <= length (lines sp))%nat.
Proof.
  intros Hact. unfold step.
  destruct (norm_gt _ _).
  - eexists. split; [reflexivity|]. split; [assumption|]. simpl. lia.
  - unfold grow_and_cull, grow. rewrite Hact. simpl.
    eexists. split; [reflexivity|]. split; [assumption|].
    cbn [lines set_lines].
    etransitivity; [apply filter_length_le|]. now rewrite length_map.
Qed.

Lemma retired_never_regrows_witness :
  exists sp',
    step (set_active square_spiral false) 16 = Ok sp' /\
    active sp' = false /\
    (length (lines sp') <= length (lines (set_active square_spiral false)))%nat.
Proof.
  apply (retired_never_regrows (set_active square_spiral false) 16).
  reflexivity.
Defined.

(** ** The cap on the number of segments *)

(** C1.  From a spiral within the cap (at most MAX_LINES = 10,000 segments,
    the invariant of the data model) and with a base shape of at least one
    vertex, every call of [step] ends, for every [dt], eta and growth rate,
    in one of three ways: it returns a spiral within the cap; the growth
    loop ends the process with [sys.exit] because a pass left more than
    MAX_LINES segments; or an index is out of range in the growth loop.  It
    never returns more than MAX_LINES segments. *)
Theorem step_within_cap (sp : Spiral) (dT : Q) :
  (Z.of_nat (length (lines sp)) <= MAX_LINES)%Z ->
  (1 <= n_vert sp)%nat ->
  (exists sp', step sp dT = Ok sp' /\
               (Z.of_nat (length (lines sp')) <= MAX_LINES)%Z) \/
  step sp dT = Raise (SystemExit "Too many lines in spiral") \/
  step sp dT = Raise IndexError.
Proof.
  intros Hcap Hn. unfold step.
  destruct (norm_gt _ _).
  - left. eexists. split; [reflexivity|]. unfold MAX_LINES. simpl. lia.
  - set (ls := map _ (lines sp)).
    assert (Hls : length ls = length (lines sp)) by apply length_map.
    unfold grow_and_cull, grow. destruct (active sp).
    + pose proof (add_lines_outcome step_fuel (n_vert sp) (eta sp) ls) as Hout.
      pose proof (step_fuel_enough (n_vert sp) (eta sp) ls Hn) as Hfuel.
      remember (add_lines step_fuel (n_vert sp) (eta sp) ls) as r eqn:Er.
      clear Er.
      destruct Hout as [ls' new Hls' Hnew| | |].
      * left. cbn [bind]. eexists. split; [reflexivity|]. cbn [lines set_lines].
        pose proof (filter_length_le (_is_line_visible sp) ls') as Hf.
        destruct Hnew as [->|Hnew]; [|lia].
        rewrite app_nil_r in Hls'. subst ls'. lia.
      * right; left. reflexivity.
      * right; right. reflexivity.
      * congruence.
    + left. cbn [bind]. eexists. split; [reflexivity|]. cbn [lines set_lines].
      pose proof (filter_length_le (_is_line_visible sp) ls). lia.
Qed.

Lemma step_within_cap_witness :
  (exists sp', step square_spiral 16 = Ok sp' /\
               (Z.of_nat (length (lines sp')) <= MAX_LINES)%Z) \/
  step square_spiral 16 = Raise (SystemExit "Too many lines in spiral") \/
  step square_spiral 16 = Raise IndexError.
Proof.
  apply (step_within_cap square_spiral 16).
  - vm_compute. discriminate.
  - simpl. lia.
Defined.

(** ** Stepping an empty spiral *)

Lemma step_active (sp sp' : Spiral) (dT : Q) :
  step sp dT = Ok sp' -> active sp' = active sp.
Proof.
  unfold step, grow_and_cull. destruct (norm_gt _ _).
  - now intros [= <-].
  - destruct (grow sp _); cbn [bind]; try discriminate. now intros [= <-].
Qed.

Lemma step_fuel_positive : exists fuel, step_fuel = S fuel.
Proof. exists (Z.to_nat MAX_LINES + 1)%nat. unfold step_fuel. lia. Qed.

Lemma center_not_degenerate (c : point) :
  norm_gt (psub c c) MAX_SPIRAL_CENTER_DEVIATION = false.
Proof.
  unfold norm_gt. apply Qltb_ge.
  assert (H : norm_sq (psub c c) == 0)
    by (destruct c as [x y]; cbv [norm_sq psub px py fst snd]; ring).
  rewrite H. unfold MAX_SPIRAL_CENTER_DEVIATION. discriminate.
Qed.

Lemma step_empty_active (sp : Spiral) (dT : Q) :
  active sp = true -> lines sp = [] -> step sp dT = Raise IndexError.
Proof.
  intros Hact Hnil. unfold step, _spiral_center. rewrite Hnil.
  rewrite center_not_degenerate. unfold grow_and_cull, grow.
  rewrite Hact. destruct step_fuel_positive as [fuel ->]. reflexivity.
Qed.

(** C10.  On an active spiral with no segment [step] raises IndexError: the
    growth loop reads the last element of the empty list.  [take_n_steps]
    with [n >= 2] meets this case as soon as one step empties the first
    spiral of the field, because it steps that spiral again; and there is
    such a field, built by the constructor alone (a square spiral in an
    empty view, where the first step culls every segment). *)
Theorem step_empty_active_raises :
  (forall sp dT,
     active sp = true -> lines sp = [] -> step sp dT = Raise IndexError) /\
  (forall h sp rest sp1 n dT,
     spirals h = sp :: rest -> active sp = true ->
     step sp dT = Ok sp1 -> lines sp1 = [] ->
     take_n_steps h (S (S n)) dT = Raise IndexError) /\
  (exists h g h1 sp1,
     SpiralsHandler_init rotate_quarter (0, 0) [4%nat] 3 (fun _ => O) = Ok (h, g) /\
     take_n_steps h 1 default_dT = Ok h1 /\
     spirals h1 = [sp1] /\ active sp1 = true /\ lines sp1 = [] /\
     take_n_steps h 2 default_dT = Raise IndexError).
Proof.
  split; [exact step_empty_active|]. split.
  - intros h sp rest sp1 n dT Hsp Hact Hstep Hnil.
    unfold take_n_steps. rewrite Hsp. cbn [for_each step_n].
    rewrite Hstep. cbn [bind].
    rewrite (step_empty_active sp1 dT); [reflexivity| |assumption].
    now rewrite (step_active sp sp1 dT Hstep).
  - do 4 eexists.
    split; [vm_compute; reflexivity|].
    split; [vm_compute; reflexivity|].
    split; [reflexivity|]. split; [reflexivity|]. split; [reflexivity|].
    vm_compute. reflexivity.
Qed.

Lemma step_empty_active_raises_witness :
  step (set_lines square_spiral []) 16 = Raise IndexError.
Proof.
  destruct step_empty_active_raises as [H _].
  apply (H (set_lines square_spiral []) 16); reflexivity.
Defined.

(** ** Spawning *)

Lemma choice_ok {A} (pool : list A) (g : rng) :
  pool <> [] -> exists a, choice pool g = Ok (a, next g) /\ In a pool.
Proof.
  intros Hne. unfold choice.
  destruct (nth_error pool (g O mod length pool)) as [a|] eqn:E.
  - exists a. split; [reflexivity|]. eapply nth_error_In; eassumption.
  - exfalso. apply nth_error_None in E.
    assert (length pool <> O) by (destruct pool; [congruence|discriminate]).
    pose proof (Nat.mod_upper_bound (g O) (length pool)). lia.
Qed.

Lemma etas_valid (e : Q) : In e etas -> 0 < e /\ e < 1.
Proof.
  simpl. intros [<-|[<-|[<-|[]]]]; split; reflexivity.
Qed.

Lemma growth_rates_valid (r : Q) : In r growth_rates -> 0 < r.
Proof.
  simpl. intros [<-|[<-|[<-|[<-|[]]]]]; reflexivity.
Qed.

Lemma chiralities_valid (ch : string) :
  In ch chiralities -> valid_chirality ch = true.
Proof.
  simpl. intros [<-|[<-|[]]]; reflexivity.
Qed.

(** C8, as stated, fails: the field that the constructor builds with the cap
    -1 has no active spiral, which is not the cap, and [add_random_spiral]
    leaves it as it is instead of appending a spiral. *)
Lemma spawn_counterexample :
  exists h g,
    SpiralsHandler_init rotate_quarter (640, 640) [4%nat] (-1) (fun _ => O)
      = Ok (h, g) /\
    active_count (spirals h) <> max_active_spirals h /\
    add_random_spiral h g = Ok (h, g) /\
    forall sp g', add_random_spiral h g <> Ok (set_spirals h (spirals h ++ [sp]), g').
Proof.
  do 2 eexists. split; [vm_compute; reflexivity|].
  split; [vm_compute; discriminate|].
  split; [vm_compute; reflexivity|].
  intros sp g'. vm_compute. discriminate.
Qed.

(** C8, amended.  [add_random_spiral] leaves the field and every spiral in it
    as they are when the number of active spirals is at least
    [max_active_spirals].  When it is less, and the pool of base shapes is
    not empty, it appends exactly one spiral to the end of the collection,
    which grows by one and keeps its spirals as they were; the new spiral is
    the one that [Spiral] constructs at the middle of the view from a shape,
    an eta, a growth rate and a chirality of the pools. *)
Theorem add_random_spiral_spec (h : SpiralsHandler) (g : rng) :
  ((max_active_spirals h <= active_count (spirals h))%Z ->
   add_random_spiral h g = Ok (h, g)) /\
  ((active_count (spirals h) < max_active_spirals h)%Z ->
   poly_vertices h <> [] ->
   exists sp g',
     add_random_spiral h g = Ok (set_spirals h (spirals h ++ [sp]), g') /\
     length (spirals (set_spirals h (spirals h ++ [sp]))) = S (length (spirals h)) /\
     exists pv e r ch,
       In pv (poly_vertices h) /\ In e etas /\ In r growth_rates /\
       In ch chiralities /\
       Spiral_init pv ch (h_view_size h) (half (h_view_size h)) e r = Ok sp).
Proof.
  unfold add_random_spiral. split.
  - intros H. apply Z.ltb_ge in H. now rewrite H.
  - intros H Hpool. apply Z.ltb_lt in H. rewrite H.
    destruct (choice_ok (poly_vertices h) g Hpool) as (pv & -> & Hpv).
    cbn [bind].
    destruct (choice_ok etas (next g)) as (e & -> & He); [discriminate|].
    cbn [bind].
    destruct (choice_ok growth_rates (next (next g))) as (r & -> & Hr);
      [discriminate|].
    cbn [bind].
    destruct (choice_ok chiralities (next (next (next g)))) as (ch & -> & Hch);
      [discriminate|].
    cbn [bind].
    destruct (etas_valid e He) as [He0 He1].
    pose proof (growth_rates_valid r Hr) as Hr0.
    pose proof (chiralities_valid ch Hch) as Hv.
    rewrite (Spiral_init_ok pv ch _ _ e r Hv He0 He1 Hr0). cbn [bind].
    do 2 eexists. split; [reflexivity|].
    split; [cbn [spirals set_spirals]; rewrite length_app; simpl; lia|].
    exists pv, e, r, ch. repeat split; try assumption.
    now apply Spiral_init_ok.
Qed.

Lemma add_random_spiral_spec_witness :
  exists sp g',
    add_random_spiral empty_field (fun _ => O) =
    Ok (set_spirals empty_field (spirals empty_field ++ [sp]), g').
Proof.
  destruct (add_random_spiral_spec empty_field (fun _ => O)) as [_ H].
  destruct H as (sp & g' & H & _); [reflexivity | discriminate |].
  exists sp, g'. exact H.
Defined.

(** The constructor establishes the cap for every base shape of at most
    MAX_LINES vertices. *)
Lemma Spiral_init_within_cap (pv : list point) (ch : string) (view c : point)
    (e g : Q) (sp : Spiral) :
  (Z.of_nat (length pv) <= MAX_LINES)%Z ->
  Spiral_init pv ch view c e g = Ok sp ->
  (Z.of_nat (length (lines sp)) <= MAX_LINES)%Z /\ n_vert sp = length pv.
Proof.
  intros Hcap. unfold Spiral_init.
  destruct (negb (valid_chirality ch)); [discriminate|].
  destruct (negb (Qltb 0 e && Qltb e 1)); [discriminate|].
  destruct (negb (Qltb 0 g)); [discriminate|].
  intros [= <-]. cbn [lines n_vert]. rewrite initial_lines_length.
  split; [|reflexivity].
  destruct (String.eqb ch "-"); now rewrite ?length_rev.
Qed.

(** The degeneracy check also leaves an active spiral empty: the second step
    of a spiral whose pivot is far from its center raises IndexError. *)
Lemma degenerate_then_index_error :
  step_n 2 far_spiral 16 = Raise IndexError.
Proof. vm_compute. reflexivity. Qed.

(** * Further properties of the code *)

(** ** Index safety of the growth loop *)

Lemma py_index_in_range {A} (l : list A) (k : Z) :
  (- Z.of_nat (length l) <= k < Z.of_nat (length l))%Z ->
  exists a, py_index l k = Some a.
Proof.
  intros Hk. unfold py_index.
  assert (Hsome : forall i, (i < length l)%nat -> exists a, nth_error l i = Some a).
  { intros i Hi. destruct (nth_error l i) eqn:E; [eauto|].
    apply nth_error_None in E. lia. }
  destruct (Z.ltb_spec k 0).
  - destruct (Z.ltb_spec (k + Z.of_nat (length l)) 0); [lia|].
    apply Hsome. lia.
  - apply Hsome. lia.
Qed.

Lemma append_line_ok (n : nat) (e : Q) (ls : list line) :
  (2 <= n)%nat -> (1 <= length ls)%nat -> (n <= 2 * length ls + 1)%nat ->
  exists ls', append_line n e ls = Ok ls'.
Proof.
  intros Hn Hlen Hwin. unfold append_line.
  destruct (py_index_in_range ls (Z.of_nat (length ls) - 1)) as [li ->]; [lia|].
  destruct (py_index_in_range ls (Z.of_nat (length ls) - Z.of_nat n + 1))
    as [lj ->]; [lia|].
  eexists; reflexivity.
Qed.

Lemma append_lines_ok (k n : nat) (e : Q) (ls : list line) :
  (2 <= n)%nat -> (1 <= length ls)%nat -> (n <= 2 * length ls + 1)%nat ->
  exists ls', append_lines k n e ls = Ok ls'.
Proof.
  intros Hn. revert ls. induction k as [|k IH]; intros ls Hlen Hwin; simpl.
  - eexists; reflexivity.
  - destruct (append_line_ok n e ls Hn Hlen Hwin) as [ls1 E].
    rewrite E. cbn [bind]. apply append_line_length in E.
    apply IH; lia.
Qed.

Lemma add_lines_index_safe (n : nat) (e : Q) (fuel : nat) (ls : list line) :
  (2 <= n)%nat -> (1 <= length ls)%nat -> (n <= 2 * length ls + 1)%nat ->
  add_lines fuel n e ls <> Raise IndexError.
Proof.
  intros Hn. revert ls. induction fuel as [|fuel IH]; intros ls Hlen Hwin; simpl.
  - discriminate.
  - destruct (py_index_in_range ls (-1)) as [last ->]; [lia|].
    destruct (norm_gt _ _); [|discriminate].
    destruct (append_lines_ok n n e ls Hn Hlen Hwin) as [ls1 E].
    rewrite E. cbn [bind]. apply append_lines_length in E.
    destruct (MAX_LINES <? Z.of_nat (length ls1))%Z; [discriminate|].
    apply IH; lia.
Qed.

(** X1.  The growth loop reads [lines[len-1]] and [lines[len-n_vert+1]].  On
    a spiral with a base shape of at least two vertices and a list that is
    not empty and has at least [(n_vert-1)/2] segments, both indices are in
    range on every pass: [step] returns or ends the process with [sys.exit],
    and never raises IndexError. *)
Theorem step_index_safe (sp : Spiral) (dT : Q) :
  (2 <= n_vert sp)%nat ->
  (1 <= length (lines sp))%nat ->
  (n_vert sp <= 2 * length (lines sp) + 1)%nat ->
  (exists sp', step sp dT = Ok sp') \/
  step sp dT = Raise (SystemExit "Too many lines in spiral").
Proof.
  intros Hn Hlen Hwin. unfold step.
  destruct (norm_gt _ _); [left; eexists; reflexivity|].
  set (ls := map _ (lines sp)).
  assert (Hls : length ls = length (lines sp)) by apply length_map.
  unfold grow_and_cull, grow. destruct (active sp).
  - pose proof (add_lines_outcome step_fuel (n_vert sp) (eta sp) ls) as Hout.
    assert (Hfuel : add_lines step_fuel (n_vert sp) (eta sp) ls <> Timeout)
      by (apply step_fuel_enough; lia).
    assert (Hidx : add_lines step_fuel (n_vert sp) (eta sp) ls <> Raise IndexError)
      by (apply add_lines_index_safe; lia).
    remember (add_lines step_fuel (n_vert sp) (eta sp) ls) as r eqn:Er.
    clear Er. destruct Hout.
    + left. eexists; reflexivity.
    + right. reflexivity.
    + congruence.
    + congruence.
  - left. eexists; reflexivity.
Qed.

Lemma step_index_safe_witness :
  (exists sp', step square_spiral 16 = Ok sp') \/
  step square_spiral 16 = Raise (SystemExit "Too many lines in spiral").
Proof.
  apply (step_index_safe square_spiral 16); simpl; lia.
Defined.

(** ** What the growth loop appends *)

Lemma add_lines_whole_passes (n : nat) (e : Q) (fuel : nat) (ls ls' : list line) :
  add_lines fuel n e ls = Ok ls' ->
  exists k new, ls' = ls ++ new /\ length new = (k * n)%nat.
Proof.
  revert ls. induction fuel as [|fuel IH]; intros ls; simpl; [discriminate|].
  destruct (py_index ls (-1)); [|discriminate].
  destruct (norm_gt _ _).
  2:{ intros [= <-]. exists O, []. now rewrite app_nil_r. }
  destruct (append_lines n n e ls) as [ls1| |] eqn:E; cbn [bind];
    try discriminate.
  destruct (MAX_LINES <? Z.of_nat (length ls1))%Z; [discriminate|].
  intros H. apply IH in H as (k & new & -> & Hnew).
  pose proof (append_lines_length _ _ _ _ _ E) as Hlen.
  apply append_lines_prefix in E as [new1 ->].
  rewrite length_app in Hlen.
  exists (S k), (new1 ++ new). split; [now rewrite app_assoc|].
  rewrite length_app. simpl. lia.
Qed.

(** X2.  Growth only appends, and appends whole passes: when the growth
    stage of [step] returns, its list is the rescaled list followed by a
    number of new segments that is a multiple of [n_vert] (none for a spiral
    that is not active). *)
Theorem growth_appends_whole_passes (sp : Spiral) (ls before : list line) :
  grow sp ls = Ok before ->
  exists k new,
    before = ls ++ new /\ length new = (k * n_vert sp)%nat /\
    (active sp = false -> new = []).
Proof.
  unfold grow. destruct (active sp).
  - intros H. apply add_lines_whole_passes in H as (k & new & H1 & H2).
    exists k, new. repeat split; try assumption. discriminate.
  - intros [= <-]. exists O, []. rewrite app_nil_r. repeat split.
Qed.

Lemma growth_appends_whole_passes_witness :
  exists k new,
    lines square_spiral = lines square_spiral ++ new /\
    length new = (k * n_vert square_spiral)%nat /\
    (active square_spiral = false -> new = []).
Proof.
  apply (growth_appends_whole_passes square_spiral).
  vm_compute. reflexivity.
Defined.

(** ** The polyline stays connected until it is culled *)

Lemma chained_map_rescale (s : Q) (pc c : point) (ls : list line) :
  chained ls -> chained (map (rescale s pc c) ls).
Proof.
  intros Hch i l l' H1 H2.
  rewrite nth_error_map in H1, H2.
  destruct (nth_error ls i) as [m|] eqn:E1; [|discriminate].
  destruct (nth_error ls (S i)) as [m'|] eqn:E2; [|discriminate].
  injection H1 as <-. injection H2 as <-.
  unfold rescale, ladd, lscale, lsub. cbn [fst snd].
  now rewrite (Hch i m m' E1 E2).
Qed.

Lemma chained_append_line (n : nat) (e : Q) (ls ls' : list line) :
  chained ls -> append_line n e ls = Ok ls' -> chained ls'.
Proof.
  intros Hch. unfold append_line.
  destruct (py_index ls (Z.of_nat (length ls) - 1)) as [li|] eqn:Ei;
    [|discriminate].
  destruct (py_index ls (Z.of_nat (length ls) - Z.of_nat n + 1)) as [lj|];
    [|discriminate].
  intros [= <-] i l l' H1 H2.
  assert (Hlen : (1 <= length ls)%nat).
  { destruct ls; [discriminate Ei | simpl; lia]. }
  replace (Z.of_nat (length ls) - 1)%Z with (Z.of_nat (length ls - 1)) in Ei by lia.
  rewrite py_index_nonneg in Ei.
  destruct (Nat.lt_trichotomy (S i) (length ls)) as [Hi|[Hi|Hi]].
  - rewrite nth_error_app1 in H1, H2 by lia. eapply Hch; eassumption.
  - rewrite nth_error_app1 in H1 by lia.
    rewrite nth_error_app2 in H2 by lia.
    replace (S i - length ls)%nat with O in H2 by lia.
    replace (length ls - 1)%nat with i in Ei by lia.
    injection H2 as <-. cbn [fst]. congruence.
  - assert (Hnone : nth_error (ls ++ [(snd li, eta_point lj e)]) (S i) = None).
    { apply nth_error_None. rewrite length_app. simpl. lia. }
    congruence.
Qed.

Lemma chained_append_lines (k n : nat) (e : Q) (ls ls' : list line) :
  chained ls -> append_lines k n e ls = Ok ls' -> chained ls'.
Proof.
  revert ls. induction k as [|k IH]; intros ls Hch; simpl.
  - now intros [= <-].
  - destruct (append_line n e ls) as [ls1| |] eqn:E; cbn [bind];
      try discriminate.
    apply IH. eapply chained_append_line; eassumption.
Qed.

Lemma chained_add_lines (n : nat) (e : Q) (fuel : nat) (ls ls' : list line) :
  chained ls -> add_lines fuel n e ls = Ok ls' -> chained ls'.
Proof.
  revert ls. induction fuel as [|fuel IH]; intros ls Hch; simpl;
    [discriminate|].
  destruct (py_index ls (-1)); [|discriminate].
  destruct (norm_gt _ _); [|now intros [= <-]].
  destruct (append_lines n n e ls) as [ls1| |] eqn:E; cbn [bind];
    try discriminate.
  destruct (MAX_LINES <? Z.of_nat (length ls1))%Z; [discriminate|].
  apply IH. eapply chained_append_lines; eassumption.
Qed.

Lemma initial_lines_chained (pv : list point) (c : point) :
  chained (initial_lines pv c).
Proof.
  pose (d := ((origin, origin) : line)).
  intros i l l' H1 H2.
  assert (Hi : (S i < length pv)%nat).
  { rewrite <- (initial_lines_length pv c). apply nth_error_Some. congruence. }
  rewrite (nth_error_nth' _ d) in H1 by (rewrite initial_lines_length; lia).
  rewrite (nth_error_nth' _ d) in H2 by (rewrite initial_lines_length; lia).
  rewrite initial_lines_nth in H1, H2 by lia.
  injection H1 as <-. injection H2 as <-. reflexivity.
Qed.

(** X3.  The list that rescaling and growth produce from a polyline is a
    polyline: the rescaling moves shared end points together, and every
    appended segment starts at the end point of the segment before it.  (The
    culling that follows can break it.) *)
Theorem growth_keeps_polyline (sp : Spiral) (s : Q) (pc : point)
    (before : list line) :
  chained (lines sp) ->
  grow sp (map (rescale s pc (center sp)) (lines sp)) = Ok before ->
  chained before.
Proof.
  intros Hch. unfold grow. destruct (active sp).
  - apply chained_add_lines. now apply chained_map_rescale.
  - intros [= <-]. now apply chained_map_rescale.
Qed.

Lemma growth_keeps_polyline_witness :
  chained (map (rescale 2 (320, 320) (center square_spiral)) (lines square_spiral)).
Proof.
  apply (growth_keeps_polyline square_spiral 2 (320, 320)).
  - apply initial_lines_chained.
  - vm_compute. reflexivity.
Defined.

(** ** The rescaling is a similarity *)

(** X4.  The rescaling multiplies the length of every segment by [s]
    (its square by [s * s]), whatever the pivot and the center are. *)
Theorem rescale_scales_lengths (s : Q) (pc c : point) (l : line) :
  length_sq (rescale s pc c l) == s * s * length_sq l.
Proof.
  destruct l as [[a b] [u v]], pc as [p q], c as [x y].
  cbv [length_sq norm_sq rescale ladd lscale lsub padd psub pscale px py fst snd].
  ring.
Qed.

(** ** What a step leaves *)

(** X5.  A call of [step] that returns changes nothing of the spiral but its
    segment list, and every segment it leaves passes the visibility test. *)
Theorem step_leaves_visible (sp sp' : Spiral) (dT : Q) :
  step sp dT = Ok sp' ->
  sp' = set_lines sp (lines sp') /\
  Forall (fun l => inside_on_some_axis (view_size sp') l) (lines sp').
Proof.
  unfold step, grow_and_cull.
  destruct (norm_gt _ _).
  - intros [= <-]. split; [reflexivity|]. constructor.
  - destruct (grow sp _) as [before| |]; cbn [bind]; try discriminate.
    intros [= <-]. split; [reflexivity|]. cbn [lines set_lines view_size].
    apply Forall_forall. intros l Hl. apply filter_In in Hl as [_ Hl].
    now apply is_line_visible_spec in Hl.
Qed.

Lemma step_leaves_visible_witness :
  exists sp',
    step square_spiral 16 = Ok sp' /\
    sp' = set_lines square_spiral (lines sp') /\
    Forall (fun l => inside_on_some_axis (view_size sp') l) (lines sp').
Proof.
  assert (E : exists sp', step square_spiral 16 = Ok sp')
    by (eexists; vm_compute; reflexivity).
  destruct E as [sp' E]. exists sp'. split; [exact E|].
  apply (step_leaves_visible square_spiral sp' 16). exact E.
Defined.

(** X6.  The visibility test never removes a segment that has an end point
    strictly inside the view rectangle, and it does not depend on the
    direction of the segment. *)
Theorem visible_if_end_point_in_view (sp : Spiral) (l : line) :
  (in_view (view_size sp) (fst l) \/ in_view (view_size sp) (snd l) ->
   _is_line_visible sp l = true) /\
  _is_line_visible sp (flip l) = _is_line_visible sp l.
Proof.
  split.
  - intros H. apply is_line_visible_spec.
    unfold in_view, inside_on_some_axis in *. tauto.
  - unfold _is_line_visible, flip. cbn [fst snd].
    destruct (Qltb 0 (px (fst l)) && Qltb (px (fst l)) (px (view_size sp)));
    destruct (Qltb 0 (py (fst l)) && Qltb (py (fst l)) (py (view_size sp)));
    destruct (Qltb 0 (px (snd l)) && Qltb (px (snd l)) (px (view_size sp)));
    destruct (Qltb 0 (py (snd l)) && Qltb (py (snd l)) (py (view_size sp)));
    reflexivity.
Qed.

Lemma visible_if_end_point_in_view_witness :
  _is_line_visible square_spiral ((319, 320), (700, 700)) = true.
Proof.
  destruct (visible_if_end_point_in_view square_spiral ((319, 320), (700, 700)))
    as [H _].
  apply H. left. repeat split.
Defined.

Lemma step_leaves_visible_aux (sp sp' : Spiral) (dT : Q) :
  step sp dT = Ok sp' ->
  Forall (inside_on_some_axis (view_size sp')) (lines sp').
Proof.
  unfold step, grow_and_cull.
  destruct (norm_gt _ _).
  - intros [= <-]. constructor.
  - destruct (grow sp _) as [before| |]; cbn [bind]; try discriminate.
    intros [= <-]. cbn [lines set_lines view_size].
    apply Forall_forall. intros l Hl. apply filter_In in Hl as [_ Hl].
    now apply is_line_visible_spec in Hl.
Qed.

(** ** Loops over the spirals of a field *)

Lemma for_each_ok (f : Spiral -> result Spiral) (ss ss' : list Spiral) :
  for_each f ss = Ok ss' <-> Forall2 (fun sp sp' => f sp = Ok sp') ss ss'.
Proof.
  revert ss'. induction ss as [|sp rest IH]; intros ss'; simpl.
  - split.
    + intros [= <-]. constructor.
    + intros H. inversion H. reflexivity.
  - split.
    + destruct (f sp) as [sp1| |] eqn:E; cbn [bind]; try discriminate.
      destruct (for_each f rest) as [rest1| |]; cbn [bind]; try discriminate.
      intros [= <-]. constructor; [assumption|]. now apply IH.
    + intros H. inversion H as [|? sp1 ? rest1 H1 H2]; subst.
      rewrite H1. cbn [bind]. apply IH in H2. rewrite H2. reflexivity.
Qed.

Lemma for_each_ext (f f' : Spiral -> result Spiral) (ss : list Spiral) :
  (forall sp, f sp = f' sp) -> for_each f ss = for_each f' ss.
Proof.
  intros H. induction ss as [|sp rest IH]; simpl; [reflexivity|].
  now rewrite H, IH.
Qed.

Lemma bind_ok_r {A} (r : result A) : (a <- r ;; Ok a) = r.
Proof. now destruct r. Qed.

Lemma step_fields (sp sp' : Spiral) (dT : Q) :
  step sp dT = Ok sp' -> sp' = set_lines sp (lines sp').
Proof.
  unfold step, grow_and_cull. destruct (norm_gt _ _).
  - now intros [= <-].
  - destruct (grow sp _); cbn [bind]; try discriminate. now intros [= <-].
Qed.

Lemma step_n_active (n : nat) (sp sp' : Spiral) (dT : Q) :
  step_n n sp dT = Ok sp' -> active sp' = active sp.
Proof.
  revert sp. induction n as [|n IH]; intros sp; simpl.
  - now intros [= <-].
  - destruct (step sp dT) as [sp1| |] eqn:E; cbn [bind]; try discriminate.
    intros H. apply IH in H. apply step_active in E. congruence.
Qed.

Lemma step_n_add (n m : nat) (sp : Spiral) (dT : Q) :
  step_n (n + m) sp dT = (sp1 <- step_n n sp dT ;; step_n m sp1 dT).
Proof.
  revert sp. induction n as [|n IH]; intros sp; simpl; [reflexivity|].
  destruct (step sp dT); cbn [bind]; auto.
Qed.

Lemma active_count_Forall2 (ss ss' : list Spiral) :
  Forall2 (fun sp sp' => active sp' = active sp) ss ss' ->
  active_count ss' = active_count ss /\ length ss' = length ss.
Proof.
  unfold active_count. induction 1 as [|sp sp' ss ss' H _ [IH1 IH2]]; simpl.
  - split; reflexivity.
  - rewrite H. destruct (active sp); simpl; split; lia.
Qed.

Lemma active_count_filter (p : Spiral -> bool) (ss : list Spiral) :
  (active_count (filter p ss) <= active_count ss)%Z.
Proof.
  unfold active_count. induction ss as [|sp ss IH]; simpl; [lia|].
  destruct (p sp), (active sp) eqn:E; simpl; rewrite ?E; simpl; lia.
Qed.

Lemma active_count_app (ss ss' : list Spiral) :
  active_count (ss ++ ss') = (active_count ss + active_count ss')%Z.
Proof.
  unfold active_count. rewrite filter_app, length_app. lia.
Qed.

Lemma Forall2_impl {A B} (R R' : A -> B -> Prop) (l : list A) (l' : list B) :
  (forall a b, R a b -> R' a b) -> Forall2 R l l' -> Forall2 R' l l'.
Proof. intros H. induction 1; constructor; auto. Qed.

(** ** SpiralsHandler.step *)

(** X7.  When the step of the field returns, no spiral of the collection is
    empty, every segment left passes the visibility test of its spiral, the
    collection has not grown and has no more active spirals than before, and
    the view, the cap and the pool of shapes are unchanged. *)
Theorem handler_step_drops_empty (h h' : SpiralsHandler) (dT : Q) :
  handler_step h dT = Ok h' ->
  Forall (fun sp => lines sp <> []) (spirals h') /\
  Forall (fun sp => Forall (inside_on_some_axis (view_size sp)) (lines sp))
         (spirals h') /\
  (length (spirals h') <= length (spirals h))%nat /\
  (active_count (spirals h') <= active_count (spirals h))%Z /\
  h' = set_spirals h (spirals h').
Proof.
  unfold handler_step.
  destruct (for_each _ (spirals h)) as [ss| |] eqn:E; cbn [bind];
    try discriminate.
  intros [= <-]. cbn [spirals set_spirals].
  apply for_each_ok in E.
  split; [|split; [|split; [|split]]].
  - apply Forall_forall. intros sp Hsp. apply filter_In in Hsp as [_ Hsp].
    destruct (lines sp); [discriminate|discriminate].
  - apply Forall_forall. intros sp' Hsp. apply filter_In in Hsp as [Hsp _].
    assert (Hfrom : exists sp, step sp dT = Ok sp').
    { clear -E Hsp. induction E as [|a b ss ss' H _ IH]; [contradiction|].
      destruct Hsp as [<-|Hsp]; eauto. }
    destruct Hfrom as [sp Hstep].
    now apply step_leaves_visible_aux in Hstep.
  - etransitivity; [apply filter_length_le|].
    apply Forall2_length in E. lia.
  - etransitivity; [apply active_count_filter|].
    apply (Forall2_impl _ (fun sp sp' => active sp' = active sp)) in E.
    + apply active_count_Forall2 in E. lia.
    + intros a b. apply step_active.
  - reflexivity.
Qed.

Lemma handler_step_drops_empty_witness :
  exists h',
    handler_step square_field 16 = Ok h' /\
    Forall (fun sp => lines sp <> []) (spirals h') /\
    (active_count (spirals h') <= active_count (spirals square_field))%Z.
Proof.
  assert (E : exists h', handler_step square_field 16 = Ok h')
    by (eexists; vm_compute; reflexivity).
  destruct E as [h' E]. exists h'. split; [exact E|].
  destruct (handler_step_drops_empty square_field h' 16 E) as (H1 & _ & _ & H2 & _).
  split; assumption.
Defined.

(** ** SpiralsHandler.take_n_steps *)

Lemma take_n_steps_ok (h h' : SpiralsHandler) (n : nat) (dT : Q) :
  take_n_steps h n dT = Ok h' <->
  h' = set_spirals h (spirals h') /\
  Forall2 (fun sp sp' => step_n n sp dT = Ok sp') (spirals h) (spirals h').
Proof.
  unfold take_n_steps. split.
  - destruct (for_each _ (spirals h)) as [ss| |] eqn:E; cbn [bind];
      try discriminate.
    intros [= <-]. split; [reflexivity|]. now apply for_each_ok in E.
  - intros [-> H]. apply for_each_ok in H. rewrite H. reflexivity.
Qed.

(** X8.  [take_n_steps] removes no spiral, not even an empty one, and
    retires none: when it returns, the collection has the same size and the
    same flags, spiral by spiral, and the view, the cap and the pool of
    shapes are unchanged. *)
Theorem take_n_steps_keeps_spirals (h h' : SpiralsHandler) (n : nat) (dT : Q) :
  take_n_steps h n dT = Ok h' ->
  length (spirals h') = length (spirals h) /\
  map active (spirals h') = map active (spirals h) /\
  active_count (spirals h') = active_count (spirals h) /\
  h' = set_spirals h (spirals h').
Proof.
  intros H. apply take_n_steps_ok in H as [Hh H].
  apply (Forall2_impl _ (fun sp sp' => active sp' = active sp)) in H;
    [|intros a b; apply step_n_active].
  destruct (active_count_Forall2 _ _ H) as [H1 H2].
  repeat split; try assumption.
  clear -H. induction H as [|a b ss ss' Hab _ IH]; simpl; [reflexivity|].
  now rewrite Hab, IH.
Qed.

Lemma take_n_steps_keeps_spirals_witness :
  exists h',
    take_n_steps square_field 2 16 = Ok h' /\
    length (spirals h') = length (spirals square_field).
Proof.
  assert (E : exists h', take_n_steps square_field 2 16 = Ok h')
    by (eexists; vm_compute; reflexivity).
  destruct E as [h' E]. exists h'. split; [exact E|].
  apply (take_n_steps_keeps_spirals square_field h' 2 16 E).
Defined.

Lemma Forall2_compose {A} (R R' : A -> A -> Prop) (l l'' : list A) :
  Forall2 (fun a c => exists b, R a b /\ R' b c) l l'' ->
  exists l', Forall2 R l l' /\ Forall2 R' l' l''.
Proof.
  induction 1 as [|a c l l'' (b & H1 & H2) _ (l' & IH1 & IH2)].
  - exists []. split; constructor.
  - exists (b :: l'). split; constructor; assumption.
Qed.

(** X9.  Steps add up: [take_n_steps] with [n + m] steps returns a field
    exactly when [n] steps return a field from which [m] steps return it. *)
Theorem take_n_steps_add (h h' : SpiralsHandler) (n m : nat) (dT : Q) :
  take_n_steps h (n + m) dT = Ok h' <->
  exists h1, take_n_steps h n dT = Ok h1 /\ take_n_steps h1 m dT = Ok h'.
Proof.
  split.
  - intros H. apply take_n_steps_ok in H as [Hh H].
    apply (Forall2_impl _
             (fun sp sp' => exists sp1, step_n n sp dT = Ok sp1 /\
                                        step_n m sp1 dT = Ok sp')) in H.
    + apply Forall2_compose in H as (ss1 & H1 & H2).
      exists (set_spirals h ss1). split.
      * apply take_n_steps_ok. split; [reflexivity|exact H1].
      * apply take_n_steps_ok. split; [rewrite Hh; reflexivity|exact H2].
    + intros a b Hab. rewrite step_n_add in Hab.
      destruct (step_n n a dT) as [a1| |]; cbn [bind] in Hab;
        try discriminate.
      exists a1. split; [reflexivity|assumption].
  - intros (h1 & H1 & H2).
    apply take_n_steps_ok in H1 as [Hh1 H1].
    apply take_n_steps_ok in H2 as [Hh2 H2].
    apply take_n_steps_ok. split.
    + rewrite Hh2, Hh1. reflexivity.
    + clear Hh1 Hh2. revert H2. generalize (spirals h').
      induction H1 as [|a b ss ss1 Hab _ IH]; intros ss' H2;
        inversion H2 as [|? c ? ss'' Hbc H2']; subst; constructor.
      * rewrite step_n_add, Hab. exact Hbc.
      * now apply IH.
Qed.

(** X10.  The step of the field is one step of every spiral, as
    [take_n_steps] does with [n = 1], followed by the removal of the spirals
    left without a segment; the two fail in the same way. *)
Theorem handler_step_is_one_step (h : SpiralsHandler) (dT : Q) :
  handler_step h dT =
  (h1 <- take_n_steps h 1 dT ;;
   Ok (set_spirals h1 (filter (fun sp => (0 <? length (lines sp))%nat)
                              (spirals h1)))).
Proof.
  unfold handler_step, take_n_steps.
  rewrite (for_each_ext (fun sp => step_n 1 sp dT) (fun sp => step sp dT)).
  - destruct (for_each _ (spirals h)); reflexivity.
  - intros sp. simpl. apply bind_ok_r.
Qed.

(** ** Retiring a spiral *)

Lemma deactivate_nth_active_spec (k : nat) (ss : list Spiral) :
  (k < length (filter active ss))%nat ->
  S (length (filter active (deactivate_nth_active k ss))) =
    length (filter active ss) /\
  length (deactivate_nth_active k ss) = length ss /\
  map (fun sp => set_active sp false) (deactivate_nth_active k ss) =
    map (fun sp => set_active sp false) ss.
Proof.
  revert k. induction ss as [|sp rest IH]; intros k; simpl; [lia|].
  destruct (active sp) eqn:E; simpl.
  - destruct k as [|k]; simpl.
    + intros _. repeat split.
    + intros Hk. rewrite E. simpl.
      destruct (IH k) as (H1 & H2 & H3); [lia|].
      repeat split; [lia | lia | now rewrite H3].
  - intros Hk. rewrite E.
    destruct (IH k Hk) as (H1 & H2 & H3).
    repeat split; [lia | lia | now rewrite H3].
Qed.

Lemma disable_random_spiral_retires (h : SpiralsHandler) (g : rng) :
  (0 < active_count (spirals h))%Z ->
  exists h',
    disable_random_spiral h g = Ok (h', next g) /\
    active_count (spirals h') = (active_count (spirals h) - 1)%Z /\
    length (spirals h') = length (spirals h) /\
    map (fun sp => set_active sp false) (spirals h') =
      map (fun sp => set_active sp false) (spirals h) /\
    h' = set_spirals h (spirals h').
Proof.
  unfold disable_random_spiral, active_count. intros H.
  destruct (Nat.ltb_spec 0 (length (filter active (spirals h)))); [|lia].
  eexists. split; [reflexivity|]. cbn [spirals set_spirals].
  destruct (deactivate_nth_active_spec
              (g O mod length (filter active (spirals h))) (spirals h))
    as (H1 & H2 & H3).
  { apply Nat.mod_upper_bound. lia. }
  repeat split; [lia | assumption | assumption].
Qed.

(** X11.  [disable_random_spiral] does nothing, and draws no random number,
    when no spiral is active.  Otherwise it retires exactly one spiral: the
    number of active spirals goes down by one, no spiral is removed, and
    nothing but one flag changes (segments and parameters are untouched). *)
Theorem disable_random_spiral_spec (h : SpiralsHandler) (g : rng) :
  (active_count (spirals h) = 0%Z -> disable_random_spiral h g = Ok (h, g)) /\
  ((0 < active_count (spirals h))%Z ->
   exists h',
     disable_random_spiral h g = Ok (h', next g) /\
     active_count (spirals h') = (active_count (spirals h) - 1)%Z /\
     length (spirals h') = length (spirals h) /\
     map (fun sp => set_active sp false) (spirals h') =
       map (fun sp => set_active sp false) (spirals h) /\
     h' = set_spirals h (spirals h')).
Proof.
  split.
  - unfold disable_random_spiral, active_count. intros H.
    destruct (filter active (spirals h)); [reflexivity|].
    simpl in H. lia.
  - apply disable_random_spiral_retires.
Qed.

Lemma disable_random_spiral_spec_witness :
  exists h',
    disable_random_spiral square_field (fun _ => O) = Ok (h', next (fun _ => O)) /\
    active_count (spirals h') = (active_count (spirals square_field) - 1)%Z.
Proof.
  destruct (disable_random_spiral_spec square_field (fun _ => O)) as [_ H].
  destruct H as (h' & H1 & H2 & _); [reflexivity|].
  exists h'. split; assumption.
Defined.

(** ** Spawning, again *)

Lemma choice_inv {A} (pool : list A) (g : rng) (a : A) (g' : rng) :
  choice pool g = Ok (a, g') -> In a pool /\ g' = next g.
Proof.
  unfold choice.
  destruct (nth_error pool (g O mod length pool)) as [b|] eqn:E;
    [|discriminate].
  intros [= <- <-]. split; [|reflexivity]. eapply nth_error_In; eassumption.
Qed.

Lemma Spiral_init_inv (pv : list point) (ch : string) (view c : point)
    (e r : Q) (sp : Spiral) :
  Spiral_init pv ch view c e r = Ok sp ->
  active sp = true /\ n_vert sp = length pv /\
  length (lines sp) = length pv /\ view_size sp = view /\ center sp = c.
Proof.
  unfold Spiral_init.
  destruct (negb (valid_chirality ch)); [discriminate|].
  destruct (negb (Qltb 0 e && Qltb e 1)); [discriminate|].
  destruct (negb (Qltb 0 r)); [discriminate|].
  intros [= <-]. cbn. rewrite initial_lines_length.
  repeat split. destruct (String.eqb ch "-"); now rewrite ?length_rev.
Qed.

Lemma add_random_spiral_inv (h h' : SpiralsHandler) (g g' : rng) :
  add_random_spiral h g = Ok (h', g') ->
  ((max_active_spirals h <= active_count (spirals h))%Z /\ h' = h /\ g' = g) \/
  ((active_count (spirals h) < max_active_spirals h)%Z /\
   exists sp pv,
     h' = set_spirals h (spirals h ++ [sp]) /\
     In pv (poly_vertices h) /\
     active sp = true /\ n_vert sp = length pv /\
     length (lines sp) = length pv /\
     view_size sp = h_view_size h /\ center sp = half (h_view_size h)).
Proof.
  unfold add_random_spiral.
  destruct (Z.ltb_spec (active_count (spirals h)) (max_active_spirals h)).
  - intros H'. right. split; [assumption|].
    destruct (choice (poly_vertices h) g) as [[pv g1]| |] eqn:E1;
      cbn [bind] in H'; try discriminate.
    destruct (choice etas g1) as [[e g2]| |]; cbn [bind] in H';
      try discriminate.
    destruct (choice growth_rates g2) as [[r g3]| |]; cbn [bind] in H';
      try discriminate.
    destruct (choice chiralities g3) as [[ch g4]| |]; cbn [bind] in H';
      try discriminate.
    destruct (Spiral_init pv ch _ _ e r) as [sp| |] eqn:E5; cbn [bind] in H';
      try discriminate.
    injection H' as <- <-.
    apply choice_inv in E1 as [Hpv _].
    apply Spiral_init_inv in E5 as (H1 & H2 & H3 & H4 & H5).
    exists sp, pv. repeat split; assumption.
  - intros [= <- <-]. left. repeat split. assumption.
Qed.

Lemma add_random_spiral_appends (h : SpiralsHandler) (g : rng) :
  (active_count (spirals h) < max_active_spirals h)%Z ->
  poly_vertices h <> [] ->
  exists sp g',
    add_random_spiral h g = Ok (set_spirals h (spirals h ++ [sp]), g') /\
    active sp = true.
Proof.
  intros H Hpool. unfold add_random_spiral. apply Z.ltb_lt in H. rewrite H.
  destruct (choice_ok (poly_vertices h) g Hpool) as (pv & -> & Hpv).
  cbn [bind].
  destruct (choice_ok etas (next g)) as (e & -> & He); [discriminate|].
  cbn [bind].
  destruct (choice_ok growth_rates (next (next g))) as (r & -> & Hr);
    [discriminate|].
  cbn [bind].
  destruct (choice_ok chiralities (next (next (next g)))) as (ch & -> & Hch);
    [discriminate|].
  cbn [bind].
  destruct (etas_valid e He) as [He0 He1].
  rewrite (Spiral_init_ok pv ch _ _ e r (chiralities_valid ch Hch) He0 He1
             (growth_rates_valid r Hr)).
  cbn [bind]. do 2 eexists. split; reflexivity.
Qed.

(** X12.  The spiral that [add_random_spiral] appends is active, sits at the
    middle of the view of the field, and starts with as many segments as its
    base shape, one of the pool, has vertices. *)
Theorem spawned_spiral_shape (h h' : SpiralsHandler) (g g' : rng) :
  add_random_spiral h g = Ok (h', g') ->
  (active_count (spirals h) < max_active_spirals h)%Z ->
  exists sp pv,
    spirals h' = spirals h ++ [sp] /\
    In pv (poly_vertices h) /\
    active sp = true /\
    n_vert sp = length pv /\ length (lines sp) = length pv /\
    view_size sp = h_view_size h /\ center sp = half (h_view_size h) /\
    active_count (spirals h') = (active_count (spirals h) + 1)%Z.
Proof.
  intros H Hlt. apply add_random_spiral_inv in H as [[Hle _]|[_ H]]; [lia|].
  destruct H as (sp & pv & -> & Hpv & Hact & Hn & Hl & Hv & Hc).
  exists sp, pv. cbn [spirals set_spirals].
  repeat split; try assumption.
  rewrite active_count_app. unfold active_count at 2. simpl.
  rewrite Hact. simpl. lia.
Qed.

Lemma spawned_spiral_shape_witness :
  exists h' g' sp,
    add_random_spiral empty_field (fun _ => O) = Ok (h', g') /\
    spirals h' = spirals empty_field ++ [sp] /\ active sp = true.
Proof.
  assert (E : exists h' g', add_random_spiral empty_field (fun _ => O) = Ok (h', g'))
    by (do 2 eexists; vm_compute; reflexivity).
  destruct E as (h' & g' & E).
  destruct (spawned_spiral_shape empty_field h' (fun _ => O) g' E)
    as (sp & pv & H1 & _ & H2 & _); [reflexivity|].
  exists h', g', sp. repeat split; assumption.
Defined.

(** ** The transition *)

(** X13.  [random_spiral_transition] does nothing on a field without spirals,
    so it cannot restart a field whose spirals have all been removed.  On a
    field with at least one active spiral, no more of them than the cap, and
    a pool of shapes that is not empty, it retires one spiral and appends a
    new active one: the collection grows by one and the number of active
    spirals stays the same. *)
Theorem transition_swaps_one (h : SpiralsHandler) (g : rng) :
  (spirals h = [] -> random_spiral_transition h g = Ok (h, g)) /\
  ((0 < active_count (spirals h))%Z ->
   (active_count (spirals h) <= max_active_spirals h)%Z ->
   poly_vertices h <> [] ->
   exists h' g',
     random_spiral_transition h g = Ok (h', g') /\
     length (spirals h') = S (length (spirals h)) /\
     active_count (spirals h') = active_count (spirals h)).
Proof.
  unfold random_spiral_transition. split.
  - intros ->. reflexivity.
  - intros Hpos Hcap Hpool.
    assert (Hne : (0 < length (spirals h))%nat).
    { unfold active_count in Hpos.
      pose proof (filter_length_le active (spirals h)). lia. }
    apply Nat.ltb_lt in Hne. rewrite Hne.
    destruct (disable_random_spiral_retires h g Hpos)
      as (h1 & -> & Hc1 & Hl1 & _ & Hh1).
    cbn [bind].
    assert (Hmax : max_active_spirals h1 = max_active_spirals h)
      by (rewrite Hh1; reflexivity).
    destruct (add_random_spiral_appends h1 (next g)) as (sp & g' & E & Hact).
    + lia.
    + rewrite Hh1. exact Hpool.
    + rewrite E. do 2 eexists. split; [reflexivity|].
      cbn [spirals set_spirals]. split.
      * rewrite length_app. simpl. lia.
      * rewrite active_count_app. unfold active_count at 2. simpl.
        rewrite Hact. simpl. lia.
Qed.

Lemma transition_swaps_one_witness :
  exists h' g',
    random_spiral_transition square_field (fun _ => O) = Ok (h', g') /\
    length (spirals h') = S (length (spirals square_field)) /\
    active_count (spirals h') = active_count (spirals square_field).
Proof.
  destruct (transition_swaps_one square_field (fun _ => O)) as [_ H].
  apply H; [reflexivity | vm_compute; discriminate | discriminate].
Defined.

(** ** The cap on active spirals *)

Lemma add_random_spiral_cap (h h' : SpiralsHandler) (g g' : rng) :
  add_random_spiral h g = Ok (h', g') ->
  (active_count (spirals h) <= max_active_spirals h)%Z ->
  (active_count (spirals h') <= max_active_spirals h')%Z /\
  max_active_spirals h' = max_active_spirals h.
Proof.
  intros H Hcap.
  apply add_random_spiral_inv in H as [(_ & -> & _)|[Hlt H]].
  - split; [assumption|reflexivity].
  - destruct H as (sp & pv & -> & _ & Hact & _).
    cbn [spirals set_spirals max_active_spirals]. split; [|reflexivity].
    rewrite active_count_app. unfold active_count at 2. simpl.
    rewrite Hact. simpl. lia.
Qed.

Lemma disable_random_spiral_cap (h h' : SpiralsHandler) (g g' : rng) :
  disable_random_spiral h g = Ok (h', g') ->
  (active_count (spirals h') <= active_count (spirals h))%Z /\
  max_active_spirals h' = max_active_spirals h.
Proof.
  intros H.
  destruct (Z.le_gt_cases (active_count (spirals h)) 0) as [Hz|Hpos].
  - assert (E : disable_random_spiral h g = Ok (h, g)).
    { unfold disable_random_spiral, active_count in *.
      destruct (filter active (spirals h)); [reflexivity|]. simpl in Hz. lia. }
    rewrite E in H. injection H as <- <-. split; [lia|reflexivity].
  - destruct (disable_random_spiral_retires h g Hpos)
      as (h1 & E & Hc & _ & _ & Hh1).
    rewrite E in H. injection H as <- <-.
    split; [lia|]. rewrite Hh1. reflexivity.
Qed.

(** X14.  The cap is an invariant of the field: from a field with at most
    [max_active_spirals] active spirals, every operation that returns
    (spawning, retiring, the transition, the step, [take_n_steps]) leaves a
    field with at most [max_active_spirals] active spirals, and the cap
    itself unchanged. *)
Theorem active_cap_invariant (h : SpiralsHandler) :
  (active_count (spirals h) <= max_active_spirals h)%Z ->
  let kept h' :=
    (active_count (spirals h') <= max_active_spirals h')%Z /\
    max_active_spirals h' = max_active_spirals h in
  (forall g h' g', add_random_spiral h g = Ok (h', g') -> kept h') /\
  (forall g h' g', disable_random_spiral h g = Ok (h', g') -> kept h') /\
  (forall g h' g', random_spiral_transition h g = Ok (h', g') -> kept h') /\
  (forall dT h', handler_step h dT = Ok h' -> kept h') /\
  (forall n dT h', take_n_steps h n dT = Ok h' -> kept h').
Proof.
  intros Hcap kept. unfold kept. clear kept.
  split; [|split; [|split; [|split]]].
  - intros g h' g' H. eapply add_random_spiral_cap; eassumption.
  - intros g h' g' H. apply disable_random_spiral_cap in H as [H1 H2].
    split; [lia|assumption].
  - intros g h' g'. unfold random_spiral_transition.
    destruct (0 <? length (spirals h))%nat.
    + destruct (disable_random_spiral h g) as [[h1 g1]| |] eqn:E; cbn [bind];
        try discriminate.
      apply disable_random_spiral_cap in E as [E1 E2].
      intros H. apply add_random_spiral_cap in H as [H1 H2]; [|lia].
      split; [assumption|congruence].
    + intros [= <- <-]. split; [assumption|reflexivity].
  - intros dT h' H.
    unfold handler_step in H.
    destruct (for_each _ (spirals h)) as [ss| |] eqn:E; cbn [bind] in H;
      try discriminate.
    injection H as <-. cbn [spirals set_spirals max_active_spirals].
    split; [|reflexivity].
    apply for_each_ok in E.
    apply (Forall2_impl _ (fun sp sp' => active sp' = active sp)) in E;
      [|intros a b; apply step_active].
    apply active_count_Forall2 in E as [E _].
    pose proof (active_count_filter
                  (fun sp => (0 <? length (lines sp))%nat) ss). lia.
  - intros n dT h' H. apply take_n_steps_ok in H as [Hh H].
    apply (Forall2_impl _ (fun sp sp' => active sp' = active sp)) in H;
      [|intros a b; apply step_n_active].
    apply active_count_Forall2 in H as [H _].
    rewrite Hh at 2 3. cbn [max_active_spirals set_spirals].
    split; [lia|reflexivity].
Qed.

Lemma active_cap_invariant_witness :
  exists h' g',
    add_random_spiral square_field (fun _ => O) = Ok (h', g') /\
    (active_count (spirals h') <= max_active_spirals h')%Z.
Proof.
  assert (E : exists h' g',
             add_random_spiral square_field (fun _ => O) = Ok (h', g'))
    by (do 2 eexists; vm_compute; reflexivity).
  destruct E as (h' & g' & E). exists h', g'. split; [exact E|].
  destruct (active_cap_invariant square_field) as [H _].
  - vm_compute. discriminate.
  - apply (H (fun _ => O) h' g' E).
Defined.

(** ** The constructor of the field *)

Section Constructor.

Variable rotate : point -> nat -> nat -> point.

(** X15.  What [SpiralsHandler.__init__] builds, for any rotation: with a cap
    of 0 or less, a field without spirals; with a cap of at least 1, a field
    with exactly one spiral, active, of one of the requested vertex counts,
    when the list of vertex counts is not empty, and IndexError (from
    [random.choice]) when it is empty. *)
Theorem SpiralsHandler_init_cases (view : point) (ns : list nat)
    (max_active : Z) (g : rng) :
  ((max_active <= 0)%Z ->
   exists h, SpiralsHandler_init rotate view ns max_active g = Ok (h, g) /\
             spirals h = [] /\ h_view_size h = view /\
             max_active_spirals h = max_active) /\
  ((1 <= max_active)%Z -> ns = [] ->
   SpiralsHandler_init rotate view ns max_active g = Raise IndexError) /\
  ((1 <= max_active)%Z -> ns <> [] ->
   exists h g' sp,
     SpiralsHandler_init rotate view ns max_active g = Ok (h, g') /\
     spirals h = [sp] /\ active sp = true /\
     In (n_vert sp) ns /\ length (lines sp) = n_vert sp /\
     center sp = half view /\
     h_view_size h = view /\ max_active_spirals h = max_active).
Proof.
  unfold SpiralsHandler_init.
  set (pvs := map _ ns).
  split; [|split].
  - intros Hmax. exists (mkHandler view max_active pvs []).
    split; [|repeat split; reflexivity].
    unfold add_random_spiral. cbn [spirals max_active_spirals].
    destruct (Z.ltb_spec (active_count []) max_active) as [H|H];
      [unfold active_count in H; simpl in H; lia | reflexivity].
  - intros Hmax ->. unfold add_random_spiral.
    cbn [spirals max_active_spirals poly_vertices].
    destruct (Z.ltb_spec (active_count []) max_active) as [H|H];
      [|unfold active_count in H; simpl in H; lia].
    subst pvs. unfold choice at 1. cbn [map length].
    destruct (g O mod 0)%nat; reflexivity.
  - intros Hmax Hns.
    destruct (add_random_spiral_appends (mkHandler view max_active pvs []) g)
      as (sp & g' & E & Hact).
    + unfold active_count. simpl. lia.
    + cbn [poly_vertices]. subst pvs. destruct ns; [congruence|discriminate].
    + pose proof E as E'.
      apply add_random_spiral_inv in E' as [(_ & Habs & _)|[_ H]].
      * exfalso. apply (f_equal spirals) in Habs. discriminate Habs.
      * destruct H as (sp' & pv & Heq & Hpv & _ & Hn & Hl & _ & Hc).
        apply (f_equal spirals) in Heq. cbn [spirals set_spirals] in Heq.
        simpl in Heq. injection Heq as <-.
        exists (set_spirals (mkHandler view max_active pvs []) [sp]), g', sp.
        split; [exact E|]. cbn [spirals set_spirals h_view_size max_active_spirals].
        repeat split; try assumption; try congruence.
        cbn [poly_vertices] in Hpv. subst pvs.
        apply in_map_iff in Hpv as (n & <- & Hn').
        rewrite Hn, length_map, length_seq. exact Hn'.
Qed.

End Constructor.

Lemma SpiralsHandler_init_cases_witness :
  exists h g' sp,
    SpiralsHandler_init rotate_quarter (640, 640) [4%nat] 3 (fun _ => O)
      = Ok (h, g') /\
    spirals h = [sp] /\ active sp = true.
Proof.
  destruct (SpiralsHandler_init_cases rotate_quarter (640, 640) [4%nat] 3
              (fun _ => O)) as (_ & _ & H).
  destruct H as (h & g' & sp & H1 & H2 & H3 & _); [lia | discriminate |].
  exists h, g', sp. repeat split; assumption.
Defined.

(** ** A field of retired spirals *)

Lemma step_retired (sp : Spiral) (dT : Q) :
  active sp = false ->
  exists sp', step sp dT = Ok sp' /\ active sp' = false /\
              (length (lines sp') <= length (lines sp))%nat.
Proof.
  intros Hact. unfold step, grow_and_cull, grow. rewrite Hact.
  destruct (norm_gt _ _); cbn [bind]; eexists; (split; [reflexivity|]);
    (split; [assumption|]); cbn [lines set_lines]; [simpl; lia|].
  etransitivity; [apply filter_length_le|]. now rewrite length_map.
Qed.

Lemma step_n_retired (n : nat) (sp : Spiral) (dT : Q) :
  active sp = false ->
  exists sp', step_n n sp dT = Ok sp' /\ active sp' = false /\
              (length (lines sp') <= length (lines sp))%nat.
Proof.
  revert sp. induction n as [|n IH]; intros sp Hact; simpl.
  - exists sp. repeat split; [assumption|lia].
  - destruct (step_retired sp dT Hact) as (sp1 & -> & H1 & H2). cbn [bind].
    destruct (IH sp1 H1) as (sp' & -> & H3 & H4).
    exists sp'. repeat split; [assumption|lia].
Qed.

Lemma length_flat_map_lines (ss : list Spiral) :
  length (flat_map lines ss) =
  fold_right (fun sp n => (length (lines sp) + n)%nat) O ss.
Proof.
  induction ss as [|sp ss IH]; simpl; [reflexivity|].
  now rewrite length_app, IH.
Qed.

Lemma for_each_retired (f : Spiral -> result Spiral) (ss : list Spiral) :
  (forall sp, active sp = false ->
     exists sp', f sp = Ok sp' /\ active sp' = false /\
                 (length (lines sp') <= length (lines sp))%nat) ->
  Forall (fun sp => active sp = false) ss ->
  exists ss',
    for_each f ss = Ok ss' /\
    Forall (fun sp => active sp = false) ss' /\
    (length (flat_map lines ss') <= length (flat_map lines ss))%nat.
Proof.
  intros Hf. induction 1 as [|sp ss Hsp _ (ss' & IH1 & IH2 & IH3)]; simpl.
  - exists []. repeat split; [constructor|simpl; lia].
  - destruct (Hf sp Hsp) as (sp' & -> & H1 & H2). cbn [bind].
    rewrite IH1. cbn [bind]. exists (sp' :: ss').
    split; [reflexivity|]. split; [now constructor|].
    simpl. rewrite !length_app. lia.
Qed.

Lemma flat_map_drop_empty (ss : list Spiral) :
  flat_map lines (filter (fun sp => (0 <? length (lines sp))%nat) ss) =
  flat_map lines ss.
Proof.
  induction ss as [|sp ss IH]; simpl; [reflexivity|].
  destruct (lines sp) eqn:E; simpl; rewrite ?E, IH; reflexivity.
Qed.

Lemma Forall_filter {A} (P : A -> Prop) (p : A -> bool) (l : list A) :
  Forall P l -> Forall P (filter p l).
Proof.
  intros H. apply Forall_forall. intros a Ha.
  apply filter_In in Ha as [Ha _]. revert a Ha. now apply Forall_forall.
Qed.

(** X16.  A field whose spirals are all retired never fails: its step and
    [take_n_steps] return for every [dT] and [n], every spiral is still
    retired afterwards, and the number of segments to draw has not grown. *)
Theorem retired_field_only_shrinks (h : SpiralsHandler) (n : nat) (dT : Q) :
  Forall (fun sp => active sp = false) (spirals h) ->
  (exists h',
     handler_step h dT = Ok h' /\
     Forall (fun sp => active sp = false) (spirals h') /\
     (length (get_all_lines h') <= length (get_all_lines h))%nat) /\
  (exists h',
     take_n_steps h n dT = Ok h' /\
     Forall (fun sp => active sp = false) (spirals h') /\
     (length (get_all_lines h') <= length (get_all_lines h))%nat).
Proof.
  intros Hall. unfold get_all_lines. split.
  - destruct (for_each_retired (fun sp => step sp dT) (spirals h))
      as (ss & E & H1 & H2); [intros sp; apply step_retired | assumption |].
    unfold handler_step. rewrite E. cbn [bind].
    eexists. split; [reflexivity|]. cbn [spirals set_spirals].
    split; [now apply Forall_filter|].
    now rewrite flat_map_drop_empty.
  - destruct (for_each_retired (fun sp => step_n n sp dT) (spirals h))
      as (ss & E & H1 & H2); [intros sp; apply step_n_retired | assumption |].
    unfold take_n_steps. rewrite E. cbn [bind].
    eexists. split; [reflexivity|]. cbn [spirals set_spirals].
    split; assumption.
Qed.

Lemma retired_field_only_shrinks_witness :
  exists h',
    take_n_steps retired_field 5 16 = Ok h' /\
    Forall (fun sp => active sp = false) (spirals h') /\
    (length (get_all_lines h') <= length (get_all_lines retired_field))%nat.
Proof.
  destruct (retired_field_only_shrinks retired_field 5 16) as [_ H].
  - repeat constructor.
  - exact H.
Defined.

(** ** The segments handed to the renderer *)

(** X17.  After a step of the field that returns, [get_all_lines] is empty
    exactly when the field has no spiral left; and the removal of the empty
    spirals loses no segment: the segments are those of the spirals after
    one step each, in the same order. *)
Theorem get_all_lines_after_step (h h' : SpiralsHandler) (dT : Q) :
  handler_step h dT = Ok h' ->
  (get_all_lines h' = [] <-> spirals h' = []) /\
  exists ss,
    for_each (fun sp => step sp dT) (spirals h) = Ok ss /\
    get_all_lines h' = flat_map lines ss.
Proof.
  unfold handler_step, get_all_lines.
  destruct (for_each _ (spirals h)) as [ss| |]; cbn [bind]; try discriminate.
  intros [= <-]. cbn [spirals set_spirals]. split.
  - split.
    + intros Hnil.
      destruct (filter _ ss) as [|sp rest] eqn:E; [reflexivity|].
      assert (Hin : In sp (filter (fun sp => (0 <? length (lines sp))%nat) ss))
        by (rewrite E; now left).
      apply filter_In in Hin as [_ Hin].
      simpl in Hnil. destruct (lines sp); [discriminate Hin|discriminate Hnil].
    + intros ->. reflexivity.
  - exists ss. split; [reflexivity|]. apply flat_map_drop_empty.
Qed.

Lemma get_all_lines_after_step_witness :
  exists h',
    handler_step square_field 16 = Ok h' /\
    (get_all_lines h' = [] <-> spirals h' = []).
Proof.
  assert (E : exists h', handler_step square_field 16 = Ok h')
    by (eexists; vm_compute; reflexivity).
  destruct E as [h' E]. exists h'. split; [exact E|].
  apply (get_all_lines_after_step square_field h' 16 E).
Defined.

(** ** An empty base shape *)

(** X18.  [Spiral.__init__] accepts a base shape without vertices: with valid
    parameters it returns an active spiral without segments, and the first
    [step] of that spiral raises IndexError, for every [dT]. *)
Theorem empty_base_shape_fails (ch : string) (view c : point) (e r dT : Q) :
  ch = "+"%string \/ ch = "-"%string -> 0 < e -> e < 1 -> 0 < r ->
  exists sp,
    Spiral_init [] ch view c e r = Ok sp /\
    lines sp = [] /\ active sp = true /\
    step sp dT = Raise IndexError.
Proof.
  intros Hch He0 He1 Hr. apply valid_chirality_spec in Hch.
  eexists. split; [now apply Spiral_init_ok|].
  assert (Hnil : initial_lines (traversal ch []) c = []).
  { unfold traversal. destruct (String.eqb ch "-"); reflexivity. }
  cbn [lines active]. split; [exact Hnil|]. split; [reflexivity|].
  apply step_empty_active; [reflexivity|exact Hnil].
Qed.

Lemma empty_base_shape_fails_witness :
  exists sp,
    Spiral_init [] "+"%string (640, 640) (320, 320) (1 # 10) (1 # 1000) = Ok sp /\
    lines sp = [] /\ active sp = true /\
    step sp 16 = Raise IndexError.
Proof.
  apply (empty_base_shape_fails "+"%string (640, 640) (320, 320)
           (1 # 10) (1 # 1000) 16);
    [left; reflexivity | reflexivity | reflexivity | reflexivity].
Defined.

(** ** The pivot of a new spiral *)

Lemma last_cons {A} (l : list A) (a d : A) : last (a :: l) d = last l a.
Proof.
  revert a d. induction l as [|b l IH]; intros a d; [reflexivity|].
  change (last (a :: b :: l) d) with (last (b :: l) d).
  now rewrite (IH b d), (IH b a).
Qed.

Lemma nth_pred_last {A} (l : list A) (d : A) :
  l <> [] -> nth (length l - 1) l d = last l d.
Proof.
  induction l as [|a l IH]; [congruence|]. intros _.
  destruct l as [|b l]; [reflexivity|].
  change (last (a :: b :: l) d) with (last (b :: l) d).
  rewrite <- IH by discriminate.
  simpl length. replace (S (S (length l)) - 1)%nat with (S (length l)) by lia.
  replace (S (length l) - 1)%nat with (length l) by lia. reflexivity.
Qed.

Lemma ring_from_length (c prev : point) (vs : list point) :
  length (ring_from c prev vs) = length vs.
Proof.
  revert prev. induction vs as [|v vs IH]; intros prev; simpl; auto.
Qed.

Lemma ring_from_nth (c prev : point) (vs : list point) (i : nat) (d : line) :
  (i < length vs)%nat ->
  nth i (ring_from c prev vs) d =
  (padd (match i with O => prev | S j => nth j vs origin end) c,
   padd (nth i vs origin) c).
Proof.
  revert prev i. induction vs as [|v vs IH]; intros prev i Hi; simpl in Hi;
    [lia|].
  destruct i as [|i]; [reflexivity|].
  simpl ring_from. cbn [nth]. rewrite IH by lia.
  destruct i; reflexivity.
Qed.

Lemma initial_lines_ring (pv : list point) (c : point) :
  initial_lines pv c = ring_from c (last pv origin) pv.
Proof.
  pose (d := ((origin, origin) : line)).
  apply (nth_ext _ _ d d).
  - now rewrite initial_lines_length, ring_from_length.
  - intros i Hi. rewrite initial_lines_length in Hi.
    rewrite initial_lines_nth, ring_from_nth by assumption.
    destruct i as [|j]; [|reflexivity].
    rewrite nth_pred_last; [reflexivity|].
    destruct pv; [simpl in Hi; lia | discriminate].
Qed.

Lemma inject_length_cons {A} (a : A) (l : list A) :
  inject_Z (Z.of_nat (length (a :: l))) == inject_Z (Z.of_nat (length l)) + 1.
Proof.
  simpl length. rewrite Nat2Z.inj_succ. unfold Z.succ.
  now rewrite inject_Z_plus.
Qed.

Lemma ring_from_sum_px (c prev : point) (vs : list point) :
  2 * px (fold_right padd origin (map midpoint (ring_from c prev vs)))
    + px (last vs prev) ==
  px prev + 2 * px (fold_right padd origin vs)
    + 2 * inject_Z (Z.of_nat (length vs)) * px c.
Proof.
  revert prev. induction vs as [|v vs IH]; intros prev.
  - simpl. ring.
  - rewrite last_cons, inject_length_cons.
    specialize (IH v). revert IH.
    generalize (inject_Z (Z.of_nat (length vs))). intros n.
    generalize (last vs v). intros w.
    cbn [ring_from map fold_right].
    generalize (fold_right padd origin (map midpoint (ring_from c v vs))).
    generalize (fold_right padd origin vs).
    intros [sx sy] [mx my].
    destruct prev as [p1 p2], v as [v1 v2], c as [c1 c2], w as [w1 w2].
    cbv [midpoint padd px py fst snd]. intros IH.
    setoid_replace (2 * ((p1 + c1 + (v1 + c1)) / 2 + mx) + w1)
      with ((p1 + c1 + (v1 + c1)) + (2 * mx + w1)) by field.
    rewrite IH. ring.
Qed.

Lemma ring_from_sum_py (c prev : point) (vs : list point) :
  2 * py (fold_right padd origin (map midpoint (ring_from c prev vs)))
    + py (last vs prev) ==
  py prev + 2 * py (fold_right padd origin vs)
    + 2 * inject_Z (Z.of_nat (length vs)) * py c.
Proof.
  revert prev. induction vs as [|v vs IH]; intros prev.
  - simpl. ring.
  - rewrite last_cons, inject_length_cons.
    specialize (IH v). revert IH.
    generalize (inject_Z (Z.of_nat (length vs))). intros n.
    generalize (last vs v). intros w.
    cbn [ring_from map fold_right].
    generalize (fold_right padd origin (map midpoint (ring_from c v vs))).
    generalize (fold_right padd origin vs).
    intros [sx sy] [mx my].
    destruct prev as [p1 p2], v as [v1 v2], c as [c1 c2], w as [w1 w2].
    cbv [midpoint padd px py fst snd]. intros IH.
    setoid_replace (2 * ((p2 + c2 + (v2 + c2)) / 2 + my) + w2)
      with ((p2 + c2 + (v2 + c2)) + (2 * my + w2)) by field.
    rewrite IH. ring.
Qed.

Lemma last_twice {A} (l : list A) (d : A) :
  l <> [] -> last l (last l d) = last l d.
Proof.
  destruct l as [|a l]; [congruence|]. intros _. now rewrite !last_cons.
Qed.

Lemma mean_shift (n m f k c : Q) :
  ~ n == 0 -> 2 * m + k == k + 2 * f + 2 * n * c ->
  1 / n * m == 1 / n * f + c.
Proof.
  intros Hn H.
  assert (Hm : m == f + n * c).
  { setoid_replace (2 * n * c) with (2 * (n * c)) in H by ring.
    revert H. generalize (n * c). intros nc H. lra. }
  rewrite Hm. field. exact Hn.
Qed.

Lemma inject_length_nonzero {A} (l : list A) :
  l <> [] -> ~ inject_Z (Z.of_nat (length l)) == 0.
Proof.
  intros Hl H. destruct l; [congruence|].
  unfold Qeq in H. simpl in H. lia.
Qed.

Lemma initial_lines_center (pv : list point) (c : point) :
  pv <> [] ->
  peq (average_point_of_lines (initial_lines pv c)) (padd (mean_point pv) c).
Proof.
  intros Hpv.
  destruct (average_point_is_mean (initial_lines pv c)) as [Hx Hy].
  pose proof (ring_from_sum_px c (last pv origin) pv) as Sx.
  pose proof (ring_from_sum_py c (last pv origin) pv) as Sy.
  rewrite last_twice in Sx, Sy by assumption.
  rewrite <- initial_lines_ring in Sx, Sy.
  split.
  - rewrite Hx. unfold mean_point.
    rewrite length_map, initial_lines_length.
    cbn [px py fst snd padd pscale].
    apply (mean_shift _ _ _ (px (last pv origin)));
      [now apply inject_length_nonzero | exact Sx].
  - rewrite Hy. unfold mean_point.
    rewrite length_map, initial_lines_length.
    cbn [px py fst snd padd pscale].
    apply (mean_shift _ _ _ (py (last pv origin)));
      [now apply inject_length_nonzero | exact Sy].
Qed.

Lemma sum_points_app (l : list point) (a : point) :
  peq (fold_right padd origin (l ++ [a])) (padd a (fold_right padd origin l)).
Proof.
  induction l as [|b l [IHx IHy]]; simpl.
  - destruct a as [x y]. cbv [peq padd origin px py fst snd]. split; ring.
  - revert IHx IHy.
    generalize (fold_right padd origin (l ++ [a])).
    generalize (fold_right padd origin l).
    intros [sx sy] [tx ty]. destruct a as [x y], b as [u v].
    cbv [peq padd px py fst snd]. intros H1 H2.
    split; [rewrite H1 | rewrite H2]; ring.
Qed.

Lemma mean_point_rev (pv : list point) :
  peq (mean_point (rev pv)) (mean_point pv).
Proof.
  unfold mean_point. rewrite length_rev.
  assert (H : peq (fold_right padd origin (rev pv)) (fold_right padd origin pv)).
  { induction pv as [|a pv [IHx IHy]]; [split; reflexivity|].
    simpl rev. destruct (sum_points_app (rev pv) a) as [Hx Hy].
    split; [rewrite Hx | rewrite Hy]; cbn [fold_right];
      revert IHx IHy;
      generalize (fold_right padd origin (rev pv));
      generalize (fold_right padd origin pv);
      intros [sx sy] [tx ty]; destruct a as [x y];
      cbv [padd px py fst snd]; intros H1 H2; rewrite ?H1, ?H2;
      reflexivity. }
  destruct H as [Hx Hy]. revert Hx Hy.
  generalize (fold_right padd origin (rev pv)).
  generalize (fold_right padd origin pv).
  intros [sx sy] [tx ty]. cbv [peq pscale px py fst snd].
  intros H1 H2. split; rewrite ?H1, ?H2; reflexivity.
Qed.

Lemma new_spiral_center (pv : list point) (ch : string) (view c : point)
    (e g : Q) (sp : Spiral) :
  pv <> [] ->
  Spiral_init pv ch view c e g = Ok sp ->
  center sp = c /\ peq (_spiral_center sp) (padd (mean_point pv) c).
Proof.
  intros Hpv. unfold Spiral_init.
  destruct (negb (valid_chirality ch)); [discriminate|].
  destruct (negb (Qltb 0 e && Qltb e 1)); [discriminate|].
  destruct (negb (Qltb 0 g)); [discriminate|].
  intros [= <-]. split; [reflexivity|].
  unfold _spiral_center. cbn [lines n_vert].
  set (tr := if String.eqb ch "-" then rev pv else pv).
  assert (Htr : tr <> [] /\ length tr = length pv /\
                peq (mean_point tr) (mean_point pv)).
  { subst tr. destruct (String.eqb ch "-").
    - split; [|split; [apply length_rev | apply mean_point_rev]].
      intros H. apply (f_equal (@length point)) in H.
      rewrite length_rev in H. destruct pv; [congruence|discriminate].
    - split; [assumption|]. split; [reflexivity|split; reflexivity]. }
  destruct Htr as (Hne & Hlen & [Hmx Hmy]).
  assert (Hwin : py_last_n (length pv) (initial_lines tr c) = initial_lines tr c).
  { unfold py_last_n. destruct (length pv) eqn:E; [reflexivity|].
    rewrite initial_lines_length, Hlen, Nat.sub_diag. reflexivity. }
  rewrite Hwin.
  destruct (initial_lines tr c) as [|l ls] eqn:EL.
  - apply (f_equal (@length line)) in EL. rewrite initial_lines_length in EL.
    destruct tr; [congruence|discriminate].
  - rewrite <- EL.
    destruct (initial_lines_center tr c Hne) as [Hx Hy].
    split; [rewrite Hx | rewrite Hy]; cbn [padd px py fst snd];
      [rewrite Hmx | rewrite Hmy]; reflexivity.
Qed.

(** X19.  The pivot of a spiral just built from a base shape that is not
    empty is [center] moved by the mean of the vertices of the shape, for
    both chiralities: a shape centred on the origin starts with its pivot on
    [center]. *)
Theorem new_spiral_pivot (pv : list point) (ch : string) (view c : point)
    (e g : Q) (sp : Spiral) :
  pv <> [] ->
  Spiral_init pv ch view c e g = Ok sp ->
  peq (_spiral_center sp) (padd (mean_point pv) (center sp)) /\
  peq (psub (_spiral_center sp) (center sp)) (mean_point pv).
Proof.
  intros Hpv Hinit.
  destruct (new_spiral_center pv ch view c e g sp Hpv Hinit) as [-> [Hx Hy]].
  split; [split; assumption|].
  revert Hx Hy. generalize (_spiral_center sp) (mean_point pv).
  intros [sx sy] [mx my]. destruct c as [c1 c2].
  cbv [peq padd psub px py fst snd]. intros H1 H2.
  split; [rewrite H1 | rewrite H2]; ring.
Qed.

Lemma new_spiral_pivot_witness :
  peq (_spiral_center square_spiral)
      (padd (mean_point square) (center square_spiral)).
Proof.
  apply (new_spiral_pivot square "+"%string (640, 640) (320, 320)
           (1 # 10) (1 # 1000) square_spiral);
    [discriminate | reflexivity].
Defined.

(** X20.  The first [step] of a spiral just built clears it exactly when the
    mean of the vertices of its base shape is more than
    MAX_SPIRAL_CENTER_DEVIATION away from the origin; otherwise the step goes
    on to the rescaling. *)
Theorem first_step_degenerate_iff (pv : list point) (ch : string)
    (view c : point) (e g : Q) (sp : Spiral) (dT : Q) :
  pv <> [] ->
  Spiral_init pv ch view c e g = Ok sp ->
  (MAX_SPIRAL_CENTER_DEVIATION * MAX_SPIRAL_CENTER_DEVIATION
     < norm_sq (mean_point pv) ->
   step sp dT = Ok (set_lines sp [])) /\
  (norm_sq (mean_point pv)
     <= MAX_SPIRAL_CENTER_DEVIATION * MAX_SPIRAL_CENTER_DEVIATION ->
   step sp dT =
   grow_and_cull sp
     (map (rescale (1 + growth_rate sp * dT) (_spiral_center sp) (center sp))
          (lines sp))).
Proof.
  intros Hpv Hinit.
  destruct (new_spiral_center pv ch view c e g sp Hpv Hinit) as [Hc [Hx Hy]].
  assert (Hn : norm_sq (psub (_spiral_center sp) (center sp))
               == norm_sq (mean_point pv)).
  { rewrite Hc. revert Hx Hy. generalize (_spiral_center sp) (mean_point pv).
    intros [sx sy] [mx my]. destruct c as [c1 c2].
    cbv [norm_sq padd psub px py fst snd]. intros H1 H2.
    rewrite H1, H2. ring. }
  unfold step, norm_gt. split; intros H.
  - rewrite <- Hn in H. apply Qltb_lt in H. now rewrite H.
  - rewrite <- Hn in H. apply Qltb_ge in H. now rewrite H.
Qed.

Lemma first_step_degenerate_iff_witness :
  step far_spiral 16 = Ok (set_lines far_spiral []).
Proof.
  destruct (first_step_degenerate_iff far_triangle "+"%string (640, 640)
              (320, 320) (1 # 10) (1 # 1000) far_spiral 16) as [H _];
    [discriminate | reflexivity |].
  apply H. vm_compute. reflexivity.
Defined.

(** ** Interpolation and the zero tick *)

(** X21.  [eta_point] interpolates along the segment: it is the start point
    at 0 and the end point at 1, and for every [eta] its distance from the
    start point is [eta] times the length of the segment (squares compared). *)
Theorem eta_point_interpolates (l : line) (e : Q) :
  peq (eta_point l 0) (fst l) /\
  peq (eta_point l 1) (snd l) /\
  norm_sq (psub (eta_point l e) (fst l)) == e * e * norm_sq (psub (snd l) (fst l)).
Proof.
  destruct l as [[a b] [u v]].
  cbv [peq eta_point norm_sq padd psub pscale px py fst snd].
  repeat split; ring.
Qed.

(** X22.  A tick of zero length does not scale: with [dT = 0] the rescaling
    of [step] moves every segment by [center - pivot] only, and leaves it
    where it is when the pivot is on [center]. *)
Theorem zero_tick_translates (sp : Spiral) (pc : point) (l : line) :
  leq (rescale (1 + growth_rate sp * 0) pc (center sp) l)
      (ladd l (psub (center sp) pc)) /\
  (peq pc (center sp) ->
   leq (rescale (1 + growth_rate sp * 0) pc (center sp) l) l).
Proof.
  destruct l as [[a b] [u v]], pc as [p q].
  destruct (center sp) as [x y]. generalize (growth_rate sp). intros r.
  cbv [leq peq rescale ladd lscale lsub padd psub pscale px py fst snd].
  split.
  - repeat split; ring.
  - intros [H1 H2]. repeat split; rewrite ?H1, ?H2; ring.
Qed.

Lemma zero_tick_translates_witness :
  leq (rescale (1 + growth_rate square_spiral * 0) (320, 320)
               (center square_spiral) ((319, 320), (320, 319)))
      ((319, 320), (320, 319)).
Proof.
  destruct (zero_tick_translates square_spiral (320, 320)
              ((319, 320), (320, 319))) as [_ H].
  apply H. split; reflexivity.
Defined.
